(** * kraftkit [cli] package: binding an options record to command-line flags

    A shallow embedding of the option binder of package [cli]
    ([fields], [name], [contextKey], [New], the [assign*] write-back
    steps and [bind]) together with the properties of the binder that
    the design document states.

    Conventions.
    - Go strings are byte strings: [string] of the Standard Library.
    - A Go [map] is a [gmap]; ranging over a Go map visits the entries
      in an order chosen by the runtime, so every loop over a map takes
      the visited sequence of entries as a list.
    - A Go slice is [option (list string)]: [None] is the [nil] slice,
      [Some []] an empty slice that is not [nil].
    - Functions that mutate the options record, the flag set or the
      heap pass a [State] explicitly and return a [Result]; the state
      also records the steps of a hook as they are entered. *)

From Stdlib Require Import ZArith Ascii String List Bool Lia.
From stdpp Require Import base option list gmap strings.

Local Open Scope string_scope.
Local Open Scope list_scope.

(** ** Package [strings], [regexp] and [strconv]: the functions the binder calls *)

Module GoStrings.

Definition byte_of (c : ascii) : nat := nat_of_ascii c.

Definition is_lower (c : ascii) : bool :=
  (97 <=? byte_of c)%nat && (byte_of c <=? 122)%nat.

Definition is_upper (c : ascii) : bool :=
  (65 <=? byte_of c)%nat && (byte_of c <=? 90)%nat.

Definition lower_byte (c : ascii) : ascii :=
  if is_upper c then ascii_of_nat (byte_of c + 32) else c.

Definition upper_byte (c : ascii) : ascii :=
  if is_lower c then ascii_of_nat (byte_of c - 32) else c.

(** [strings.ToLower] on identifiers written in ASCII: bytes outside
    [A-Z] are kept. *)
Fixpoint ToLower (s : string) : string :=
  match s with
  | EmptyString => EmptyString
  | String c s' => String (lower_byte c) (ToLower s')
  end.

(** [strings.ToUpper] applied to the one-byte string [s[0:1]].  A byte
    above 127 is not valid UTF-8 on its own and is replaced by the
    three bytes of U+FFFD. *)
Definition ToUpper1 (c : ascii) : string :=
  if (byte_of c <? 128)%nat then String (upper_byte c) EmptyString
  else String (ascii_of_nat 239) (String (ascii_of_nat 191)
         (String (ascii_of_nat 189) EmptyString)).

(** [strings.Split(s, sep)] for a separator of one byte. *)
Fixpoint Split (s : string) (sep : ascii) : list string :=
  match s with
  | EmptyString => [EmptyString]
  | String c s' =>
      if Ascii.eqb c sep then EmptyString :: Split s' sep
      else match Split s' sep with
           | [] => [String c EmptyString]
           | p :: ps => String c p :: ps
           end
  end.

(** The text before and after the first occurrence of [sep]. *)
Fixpoint cut (s : string) (sep : ascii) : option (string * string) :=
  match s with
  | EmptyString => None
  | String c s' =>
      if Ascii.eqb c sep then Some (EmptyString, s')
      else match cut s' sep with
           | Some (a, b) => Some (String c a, b)
           | None => None
           end
  end.

(** [strings.SplitN(s, sep, 2)] for a separator of one byte. *)
Definition SplitN2 (s : string) (sep : ascii) : list string :=
  match cut s sep with
  | Some (a, b) => [a; b]
  | None => [s]
  end.

(** [caseRegexp.ReplaceAllString(s, "$1-$2")] with
    [caseRegexp = ([a-z])([A-Z])]: leftmost matches that do not
    overlap; after a match the scan resumes behind the upper-case
    letter. *)
Fixpoint caseRegexp_ReplaceAllString (s : string) : string :=
  match s with
  | EmptyString => EmptyString
  | String a t =>
      match t with
      | EmptyString => String a EmptyString
      | String b rest =>
          if is_lower a && is_upper b
          then String a (String "-" (String b (caseRegexp_ReplaceAllString rest)))
          else String a (caseRegexp_ReplaceAllString t)
      end
  end.

Definition digit (c : ascii) : option Z :=
  let n := byte_of c in
  if (48 <=? n)%nat && (n <=? 57)%nat then Some (Z.of_nat (n - 48)) else None.

Fixpoint digits (acc : Z) (s : string) : option Z :=
  match s with
  | EmptyString => Some acc
  | String c s' =>
      match digit c with
      | Some d => digits (10 * acc + d) s'
      | None => None
      end
  end.

Definition minInt : Z := - 2 ^ 63.
Definition maxInt : Z := 2 ^ 63 - 1.

(** [strconv.Atoi] with a 64-bit [int]: an optional sign, then one or
    more decimal digits, the value within the range of [int]; [None]
    stands for a returned error. *)
Definition Atoi (s : string) : option Z :=
  match s with
  | EmptyString => None
  | String c s' =>
      let '(neg, body) :=
        if Ascii.eqb c "-" then (true, s')
        else if Ascii.eqb c "+" then (false, s')
        else (false, s) in
      match body with
      | EmptyString => None
      | _ =>
          match digits 0 body with
          | Some n =>
              let v := if neg then (- n)%Z else n in
              if (minInt <=? v)%Z && (v <=? maxInt)%Z then Some v else None
          | None => None
          end
      end
  end.

End GoStrings.

Import GoStrings.

(** ** Naming: [contextKey] and [name] *)

Definition contextKey (name : string) : string :=
  let parts := Split name "," in
  nth (length parts - 1) parts "".

Definition name (name setName short : string) : string * string :=
  if bool_decide (setName ≠ "") then (setName, short)
  else
    let parts := Split name "_" in
    let i := (length parts - 1)%nat in
    let name := caseRegexp_ReplaceAllString (nth i parts "") in
    let name := ToLower name in
    let result := name :: take i parts in
    let result := map ToLower result in
    let short :=
      if bool_decide (short = "") && (1 <? length result)%nat
      then nth 1 result "" else short in
    (nth 0 result "", short).

(** ** Package [reflect]: kinds, types and struct fields *)

Module reflect.

Inductive Kind : Set :=
| Invalid | Bool | Int | Int8 | Int16 | Int32 | Int64
| Uint | Uint8 | Uint16 | Uint32 | Uint64 | Uintptr
| Float32 | Float64 | Complex64 | Complex128
| Array | Chan | Func | Interface | Map | Pointer | Slice
| String | Struct | UnsafePointer.

#[global] Instance Kind_eq_dec : EqDecision Kind.
Proof. solve_decision. Defined.

End reflect.

(** A struct tag: the key/value pairs in the order they are written. *)
Abbreviation Tag := (list (string * string)).

(** [Tag.Get]: the value of the first pair with this key, or the empty
    string. *)
Fixpoint TagGet (tag : Tag) (key : string) : string :=
  match tag with
  | [] => ""
  | (k, v) :: tag' => if bool_decide (k = key) then v else TagGet tag' key
  end.

(** Types as far as the binder looks into them: the kind, the element
    type of a pointer and the fields of a struct. *)
Inductive GoType : Type :=
| TKind (k : reflect.Kind)
| TPtr (elem : GoType)
| TStruct (tname : string) (fs : list StructField)
with StructField : Type :=
| mkStructField (Name : string) (Anonymous : bool) (tag : Tag) (type : GoType).

Definition Name (f : StructField) : string :=
  match f with mkStructField n _ _ _ => n end.
Definition Anonymous (f : StructField) : bool :=
  match f with mkStructField _ a _ _ => a end.
Definition FieldTag (f : StructField) : Tag :=
  match f with mkStructField _ _ t _ => t end.
Definition Type_ (f : StructField) : GoType :=
  match f with mkStructField _ _ _ t => t end.

Definition TypeKind (t : GoType) : reflect.Kind :=
  match t with
  | TKind k => k
  | TPtr _ => reflect.Pointer
  | TStruct _ _ => reflect.Struct
  end.

(** [Type.Elem().Kind()] of a pointer type. *)
Definition ElemKind (t : GoType) : reflect.Kind :=
  match t with
  | TPtr e => TypeKind e
  | _ => reflect.Invalid
  end.

(** A [reflect.Value] obtained from the options record is the place of
    a field: the indices that lead to it from the record. *)
Abbreviation Loc := (list nat).

Record fieldInfo : Type := mkFieldInfo {
  FieldType : StructField;
  FieldValue : Loc
}.

(** [fields(obj)], [obj] pointing to a struct of type [t] stored at
    [base]. *)
Fixpoint fields (t : GoType) (base : Loc) : list fieldInfo :=
  match t with
  | TStruct _ fs =>
      (fix loop (fs : list StructField) (i : nat) {struct fs} : list fieldInfo :=
         match fs with
         | [] => []
         | fieldType :: rest =>
             (match fieldType with
              | mkStructField _ anonymous _ ty =>
                  if anonymous && bool_decide (TypeKind ty = reflect.Struct)
                  then fields ty (base ++ [i])
                  else if negb anonymous
                  then [mkFieldInfo fieldType (base ++ [i])]
                  else []
              end) ++ loop rest (S i)
         end) fs 0%nat
  | _ => []
  end.

(** The test of [New] that decides whether a field is bound:
    [strings.ToUpper(Name[0:1]) == Name[0:1]].  A Go field name is
    never empty. *)
Definition exported (f : StructField) : bool :=
  match Name f with
  | EmptyString => false
  | String c _ => bool_decide (ToUpper1 c = String c EmptyString)
  end.

(** The fields for which the loop of [New] does not [continue]. *)
Definition bindable (t : GoType) (base : Loc) : list fieldInfo :=
  filter (fun info => exported (FieldType info) = true) (fields t base).

(** ** The options record, the heap and the flag set *)

Inductive GoVal : Type :=
| GInt (n : Z)
| GString (s : string)
| GBool (b : bool)
| GSlice (s : option (list string))
| GMap (m : option (gmap string string))
| GPtr (p : option nat).

(** A variable that a pointer of the record refers to. *)
Inductive Cell : Type :=
| CInt (n : Z)
| CString (s : string)
| CBool (b : bool).

(** What a getter of the flag set returns for a flag. *)
Inductive FlagVal : Type :=
| VInt (n : Z)
| VString (s : string)
| VBool (b : bool)
| VStringSlice (s : option (list string))
| VStringArray (s : option (list string)).

(** Where a flag keeps its value: in a variable of its own ([IntP],
    [StringP], ...) or in a field of the options record ([IntVarP],
    [StringVarP], [BoolVarP]). *)
Inductive FlagStore : Type :=
| Own (v : FlagVal)
| Bound (l : Loc).

Record Flag : Type := mkFlag {
  Shorthand : string;
  Usage : string;
  Local : bool;
  DefValue : FlagVal;
  Value : FlagStore;
  Changed : bool
}.

Inductive Error : Type :=
| ErrNotDefined (name : string)
| ErrType (want name : string)
| ErrOther (msg : string).

Inductive Result : Type :=
| ROk
| RErr (e : Error)
| RPanic.

(** The steps of a hook, recorded in the order they are entered. *)
Inductive Step : Set :=
| SEnv | SArrays | SSlices | SMaps | SOptInt | SOptBool | SOptString | SNext.

#[global] Instance Step_eq_dec : EqDecision Step.
Proof. solve_decision. Defined.

Record State : Type := mkState {
  obj : gmap Loc GoVal;
  heap : list Cell;
  flags : gmap string Flag;
  environ : gmap string string;
  trace : list Step
}.

Definition set_obj (f : gmap Loc GoVal -> gmap Loc GoVal) (st : State) : State :=
  mkState (f (obj st)) (heap st) (flags st) (environ st) (trace st).
Definition set_heap (f : list Cell -> list Cell) (st : State) : State :=
  mkState (obj st) (f (heap st)) (flags st) (environ st) (trace st).
Definition set_flags (f : gmap string Flag -> gmap string Flag) (st : State) : State :=
  mkState (obj st) (heap st) (f (flags st)) (environ st) (trace st).
Definition enter (s : Step) (st : State) : State :=
  mkState (obj st) (heap st) (flags st) (environ st) (trace st ++ [s]).

(** [v.Set(reflect.ValueOf(x))] on the field at [v]. *)
Definition fieldSet (v : Loc) (x : GoVal) (st : State) : State :=
  set_obj (fun o => <[v := x]> o) st.

(** [v.Set(reflect.ValueOf(&i))]: [i] is a variable of the loop body,
    so every execution of the statement takes the address of a new
    variable. *)
Definition fieldSetAddr (v : Loc) (i : Cell) (st : State) : State :=
  let a := length (heap st) in
  fieldSet v (GPtr (Some a)) (set_heap (fun h => h ++ [i]) st).

(** [os.Getenv]. *)
Definition Getenv (st : State) (key : string) : string :=
  default "" (environ st !! key).

(** *** Package [pflag] *)

Definition Lookup (st : State) (name : string) : option Flag :=
  flags st !! name.

(** The value a flag holds now. *)
Definition current (st : State) (f : Flag) : option FlagVal :=
  match Value f with
  | Own v => Some v
  | Bound l =>
      match obj st !! l with
      | Some (GInt n) => Some (VInt n)
      | Some (GString s) => Some (VString s)
      | Some (GBool b) => Some (VBool b)
      | _ => None
      end
  end.

Definition GetInt (st : State) (name : string) : Error + Z :=
  match Lookup st name with
  | None => inl (ErrNotDefined name)
  | Some f =>
      match current st f with
      | Some (VInt n) => inr n
      | _ => inl (ErrType "int" name)
      end
  end.

Definition GetString (st : State) (name : string) : Error + string :=
  match Lookup st name with
  | None => inl (ErrNotDefined name)
  | Some f =>
      match current st f with
      | Some (VString s) => inr s
      | _ => inl (ErrType "string" name)
      end
  end.

Definition GetBool (st : State) (name : string) : Error + bool :=
  match Lookup st name with
  | None => inl (ErrNotDefined name)
  | Some f =>
      match current st f with
      | Some (VBool b) => inr b
      | _ => inl (ErrType "bool" name)
      end
  end.

Definition GetStringSlice (st : State) (name : string) : Error + option (list string) :=
  match Lookup st name with
  | None => inl (ErrNotDefined name)
  | Some f =>
      match current st f with
      | Some (VStringSlice s) => inr s
      | _ => inl (ErrType "stringSlice" name)
      end
  end.

Definition GetStringArray (st : State) (name : string) : Error + option (list string) :=
  match Lookup st name with
  | None => inl (ErrNotDefined name)
  | Some f =>
      match current st f with
      | Some (VStringArray s) => inr s
      | _ => inl (ErrType "stringArray" name)
      end
  end.

Definition changed (f : Flag) : Flag :=
  mkFlag (Shorthand f) (Usage f) (Local f) (DefValue f) (Value f) true.

Definition holding (v : FlagVal) (f : Flag) : Flag :=
  mkFlag (Shorthand f) (Usage f) (Local f) (DefValue f) (Own v) (Changed f).

(** [FlagSet.Set(name, value)] for a flag of type string, the only use
    the binder makes of it: the value is stored and the flag is marked
    as changed.  Other flags are left alone. *)
Definition FlagSet_Set (st : State) (name value : string) : State :=
  match Lookup st name with
  | None => st
  | Some f =>
      match Value f with
      | Own (VString _) =>
          set_flags (fun fs => <[name := changed (holding (VString value) f)]> fs) st
      | Bound l =>
          match obj st !! l with
          | Some (GString _) =>
              set_flags (fun fs => <[name := changed f]> fs)
                (set_obj (fun o => <[l := GString value]> o) st)
          | _ => st
          end
      | _ => st
      end
  end.

(** Registration.  A flag created by [IntVarP], [StringVarP] or
    [BoolVarP] keeps its value in the field the pointer refers to and
    stores the default there; a flag created by [IntP], [StringP],
    [BoolP], [StringSliceP] or [StringArrayP] has a variable of its
    own.  The persistent and the local flag set of the command are
    kept in one table, every flag recording the set it was added to;
    a registration replaces the entry of its name, the checks [pflag]
    makes on a name or shorthand are left out. *)
Definition VarP (v : Loc) (x : GoVal) (d : FlagVal)
    (loc : bool) (name shorthand usage : string) (st : State) : State :=
  set_flags (fun fs => <[name := mkFlag shorthand usage loc d (Bound v) false]> fs)
    (fieldSet v x st).

Definition P (d : FlagVal)
    (loc : bool) (name shorthand usage : string) (st : State) : State :=
  set_flags (fun fs => <[name := mkFlag shorthand usage loc d (Own d) false]> fs) st.

Definition IntVarP (v : Loc) loc name shorthand (value : Z) usage :=
  VarP v (GInt value) (VInt value) loc name shorthand usage.
Definition StringVarP (v : Loc) loc name shorthand (value : string) usage :=
  VarP v (GString value) (VString value) loc name shorthand usage.
Definition BoolVarP (v : Loc) loc name shorthand (value : bool) usage :=
  VarP v (GBool value) (VBool value) loc name shorthand usage.
Definition IntP loc name shorthand (value : Z) usage :=
  P (VInt value) loc name shorthand usage.
Definition StringP loc name shorthand (value : string) usage :=
  P (VString value) loc name shorthand usage.
Definition BoolP loc name shorthand (value : bool) usage :=
  P (VBool value) loc name shorthand usage.

(** [StringSliceP] and [StringArrayP] with the default [nil]: the flag
    has no tokens, and its getter returns the empty slice, which the
    conversions of [pflag] ([stringSliceConv], [stringArrayConv])
    build as [[]string{}], a slice that is not [nil]. *)
Definition StringSliceP loc name shorthand usage :=
  P (VStringSlice (Some [])) loc name shorthand usage.
Definition StringArrayP loc name shorthand usage :=
  P (VStringArray (Some [])) loc name shorthand usage.

(** ** [New]: from the fields of the record to flags and hooks *)

(** A closure appended to [envs]: the variables it has captured. *)
Record EnvCallback : Type := mkEnvCallback {
  cb_env : string;
  cb_name : string;
  cb_defValue : string
}.

(** The closures of one field capture the range variable [env] of the
    loop that creates them.  Up to Go 1.21 the iterations of a loop
    share that variable, so that a closure called after the loop reads
    the last name; from Go 1.22 on every iteration has its own.  The
    language version is set by the module file, which the binder does
    not see: [New] takes it as a parameter. *)
Inductive LoopVar : Set := PerLoop | PerIteration.

Definition captured (lv : LoopVar) (env : list string) (e : string) : string :=
  match lv with
  | PerIteration => e
  | PerLoop => default "" (last env)
  end.

Record Command : Type := mkCommand {
  arrays : gmap string Loc;
  slices : gmap string Loc;
  maps : gmap string Loc;
  optString : gmap string Loc;
  optBool : gmap string Loc;
  optInt : gmap string Loc;
  envs : list EnvCallback
}.

Definition Command_empty : Command := mkCommand ∅ ∅ ∅ ∅ ∅ ∅ [].

Definition with_arrays (name : string) (v : Loc) (c : Command) : Command :=
  mkCommand (<[name := v]> (arrays c)) (slices c) (maps c)
            (optString c) (optBool c) (optInt c) (envs c).
Definition with_slices (name : string) (v : Loc) (c : Command) : Command :=
  mkCommand (arrays c) (<[name := v]> (slices c)) (maps c)
            (optString c) (optBool c) (optInt c) (envs c).
Definition with_maps (name : string) (v : Loc) (c : Command) : Command :=
  mkCommand (arrays c) (slices c) (<[name := v]> (maps c))
            (optString c) (optBool c) (optInt c) (envs c).
Definition with_optString (name : string) (v : Loc) (c : Command) : Command :=
  mkCommand (arrays c) (slices c) (maps c)
            (<[name := v]> (optString c)) (optBool c) (optInt c) (envs c).
Definition with_optBool (name : string) (v : Loc) (c : Command) : Command :=
  mkCommand (arrays c) (slices c) (maps c)
            (optString c) (<[name := v]> (optBool c)) (optInt c) (envs c).
Definition with_optInt (name : string) (v : Loc) (c : Command) : Command :=
  mkCommand (arrays c) (slices c) (maps c)
            (optString c) (optBool c) (<[name := v]> (optInt c)) (envs c).
Definition with_envs (cbs : list EnvCallback) (c : Command) : Command :=
  mkCommand (arrays c) (slices c) (maps c)
            (optString c) (optBool c) (optInt c) (envs c ++ cbs).

(** The [switch] of [New] on the kind of the field; [None] is the
    [panic] of its [default] branch. *)
Definition register (fieldType : StructField) (v : Loc)
    (loc : bool) (name alias : string) (defInt : Z) (defValue usage : string)
    (b : Command * State) : option (Command * State) :=
  let '(c, st) := b in
  match TypeKind (Type_ fieldType) with
  | reflect.Int => Some (c, IntVarP v loc name alias defInt usage st)
  | reflect.Int64 => Some (c, IntVarP v loc name alias defInt usage st)
  | reflect.String => Some (c, StringVarP v loc name alias defValue usage st)
  | reflect.Slice =>
      if bool_decide (TagGet (FieldTag fieldType) "split" = "false")
      then Some (with_arrays name v c, StringArrayP loc name alias usage st)
      else Some (with_slices name v c, StringSliceP loc name alias usage st)
  | reflect.Map => Some (with_maps name v c, StringSliceP loc name alias usage st)
  | reflect.Bool => Some (c, BoolVarP v loc name alias false usage st)
  | reflect.Pointer =>
      match ElemKind (Type_ fieldType) with
      | reflect.Int => Some (with_optInt name v c, IntP loc name alias defInt usage st)
      | reflect.String => Some (with_optString name v c, StringP loc name alias defValue usage st)
      | reflect.Bool => Some (with_optBool name v c, BoolP loc name alias false usage st)
      | _ => Some (c, st)
      end
  | _ => None
  end.

(** The body of the loop of [New] over [fields(obj)]. *)
Definition New_field (lv : LoopVar) (info : fieldInfo)
    (b : Command * State) : option (Command * State) :=
  let fieldType := FieldType info in
  let v := FieldValue info in
  if negb (exported fieldType) then Some b
  else
    let '(name, alias) :=
      name (Name fieldType) (TagGet (FieldTag fieldType) "name")
           (TagGet (FieldTag fieldType) "short") in
    let usage := TagGet (FieldTag fieldType) "usage" in
    let env := Split (TagGet (FieldTag fieldType) "env") "," in
    let defValue := TagGet (FieldTag fieldType) "default" in
    let env :=
      if (length env =? 1)%nat && bool_decide (nth 0 env "" = "") then [] else env in
    let defInt := match Atoi defValue with Some n => n | None => 0%Z end in
    let loc := bool_decide (TagGet (FieldTag fieldType) "local" = "true") in
    match register fieldType v loc name alias defInt defValue usage b with
    | None => None
    | Some (c, st) =>
        Some (with_envs
                (map (fun e => mkEnvCallback (captured lv env e) name defValue) env) c,
              st)
    end.

Fixpoint New_loop (lv : LoopVar) (infos : list fieldInfo)
    (b : Command * State) : option (Command * State) :=
  match infos with
  | [] => Some b
  | info :: infos' =>
      match New_field lv info b with
      | None => None
      | Some b' => New_loop lv infos' b'
      end
  end.

(** [New(obj, cmd)]: [t] is the type of the record [obj] points to,
    [st] holds the record and the flags of [cmd].  [None]: [New]
    panics. *)
Definition New (lv : LoopVar) (t : GoType) (st : State) : option (Command * State) :=
  New_loop lv (fields t []) (Command_empty, st).

(** ** The environment overlay and the write-back steps *)

(** One closure of [envs]. *)
Definition envCallback (cb : EnvCallback) (st : State) : State :=
  let v := Getenv st (cb_env cb) in
  if bool_decide (v ≠ "") then
    match GetString st (cb_name cb) with
    | inr fv =>
        if bool_decide (fv = "") || bool_decide (fv = cb_defValue cb)
        then FlagSet_Set st (cb_name cb) v
        else st
    | inl _ => st
    end
  else st.

(** [for _, envCallback := range envs { envCallback() }]. *)
Definition runEnvs (envs : list EnvCallback) (st : State) : State :=
  fold_left (fun st cb => envCallback cb st) envs st.

(** [for k, v := range m { body }] over the entries in the order the
    runtime visits them; a body ends with [ROk] when it reaches its end
    or a [continue], and with the result it returns otherwise. *)
Fixpoint forRange (body : string -> Loc -> State -> State * Result)
    (m : list (string * Loc)) (st : State) : State * Result :=
  match m with
  | [] => (st, ROk)
  | (k, v) :: m' =>
      match body k v st with
      | (st', ROk) => forRange body m' st'
      | (st', r) => (st', r)
      end
  end.

Definition assignOptBool_body (k : string) (v : Loc) (st : State) : State * Result :=
  let k := contextKey k in
  match Lookup st k with
  | None => (st, RPanic)
  | Some f =>
      if negb (Changed f) then (st, ROk)
      else match GetBool st k with
           | inl err => (st, RErr err)
           | inr i => (fieldSetAddr v (CBool i) st, ROk)
           end
  end.

Definition assignOptBool := forRange assignOptBool_body.

Definition assignOptString_body (k : string) (v : Loc) (st : State) : State * Result :=
  let k := contextKey k in
  match Lookup st k with
  | None => (st, RPanic)
  | Some f =>
      if negb (Changed f) then (st, ROk)
      else match GetString st k with
           | inl err => (st, RErr err)
           | inr i => (fieldSetAddr v (CString i) st, ROk)
           end
  end.

Definition assignOptString := forRange assignOptString_body.

Definition assignOptInt_body (k : string) (v : Loc) (st : State) : State * Result :=
  let k := contextKey k in
  match Lookup st k with
  | None => (st, RPanic)
  | Some f =>
      if negb (Changed f) then (st, ROk)
      else match GetInt st k with
           | inl err => (st, RErr err)
           | inr i => (fieldSetAddr v (CInt i) st, ROk)
           end
  end.

Definition assignOptInt := forRange assignOptInt_body.

(** The inner loop of [assignMaps]: one token. *)
Definition putPart (values : gmap string string) (part : string) : gmap string string :=
  let parts := SplitN2 part "=" in
  if (length parts =? 1)%nat
  then <[nth 0 parts "" := ""]> values
  else <[nth 0 parts "" := nth 1 parts ""]> values.

Definition parseParts (s : list string) : gmap string string :=
  fold_left putPart s ∅.

Definition assignMaps_body (k : string) (v : Loc) (st : State) : State * Result :=
  let k := contextKey k in
  match GetStringSlice st k with
  | inl err => (st, RErr err)
  | inr s =>
      match s with
      | Some parts => (fieldSet v (GMap (Some (parseParts parts))) st, ROk)
      | None => (st, ROk)
      end
  end.

Definition assignMaps := forRange assignMaps_body.

(** [len(s)] of a slice. *)
Definition len (s : option (list string)) : nat :=
  match s with
  | Some l => length l
  | None => 0
  end.

Definition assignSlices_body (k : string) (v : Loc) (st : State) : State * Result :=
  let k := contextKey k in
  match GetStringSlice st k with
  | inl err => (st, RErr err)
  | inr s =>
      match Lookup st k with
      | None => (st, RPanic)
      | Some a =>
          let s := if Changed a && (len s =? 0)%nat then Some [""] else s in
          match s with
          | Some l => (fieldSet v (GSlice (Some l)) st, ROk)
          | None => (st, ROk)
          end
      end
  end.

Definition assignSlices := forRange assignSlices_body.

Definition assignArrays_body (k : string) (v : Loc) (st : State) : State * Result :=
  let k := contextKey k in
  match GetStringArray st k with
  | inl err => (st, RErr err)
  | inr s =>
      match Lookup st k with
      | None => (st, RPanic)
      | Some a =>
          let s := if Changed a && (len s =? 0)%nat then Some [""] else s in
          match s with
          | Some l => (fieldSet v (GSlice (Some l)) st, ROk)
          | None => (st, ROk)
          end
      end
  end.

Definition assignArrays := forRange assignArrays_body.

(** ** [bind]: the hook placed before a callable of the command *)

(** A callable of the command: [func(cmd, args) error]; the command is
    part of the state. *)
Definition Hook : Type := list string -> State -> State * Result.

(** One write-back step of the hook; the step is recorded when it is
    entered. *)
Definition step (s : Step) (f : State -> State * Result) (st : State) : State * Result :=
  f (enter s st).

Definition bind (next : option Hook)
    (arrays slices maps optInt optBool optString : list (string * Loc))
    (envs : list EnvCallback) : option Hook :=
  match next with
  | None => None
  | Some next =>
      Some (fun args st =>
        let st := runEnvs envs (enter SEnv st) in
        match step SArrays (assignArrays arrays) st with
        | (st, ROk) =>
          match step SSlices (assignSlices slices) st with
          | (st, ROk) =>
            match step SMaps (assignMaps maps) st with
            | (st, ROk) =>
              match step SOptInt (assignOptInt optInt) st with
              | (st, ROk) =>
                match step SOptBool (assignOptBool optBool) st with
                | (st, ROk) =>
                  match step SOptString (assignOptString optString) st with
                  | (st, ROk) => next args (enter SNext st)
                  | r => r
                  end
                | r => r
                end
              | r => r
              end
            | r => r
            end
          | r => r
          end
        | r => r
        end)
  end.

(** [l] is an order in which ranging over the map [m] can visit its
    entries. *)
Definition range_of (m : gmap string Loc) (l : list (string * Loc)) : Prop :=
  l ≡ₚ map_to_list m.

(** The hook [New] installs as [RunE], for orders [oa], ..., [os] in
    which the six maps are visited. *)
Definition RunE (c : Command) (run : Hook)
    (oa osl om oi ob os : list (string * Loc)) : option Hook :=
  bind (Some run) oa osl om oi ob os (envs c).

(** ** What a write-back body does, read off the flag table *)

(** The bodies of the six loops have one shape: from the flag found
    under [contextKey k] they go on to the next entry, return, or set
    the field to a value or to the address of a new variable. *)
Inductive Action : Type :=
| Skip
| Stop (r : Result)
| Put (x : GoVal)
| PutAddr (c : Cell).

Definition perform (v : Loc) (a : Action) (st : State) : State * Result :=
  match a with
  | Skip => (st, ROk)
  | Stop r => (st, r)
  | Put x => (fieldSet v x st, ROk)
  | PutAddr c => (fieldSetAddr v c st, ROk)
  end.

(** The state [st'] differs from [st] at most in the fields [W] of the
    record and in variables allocated since. *)
Record frame (W : Loc -> Prop) (st st' : State) : Prop := mkFrame {
  frame_flags : flags st' = flags st;
  frame_environ : environ st' = environ st;
  frame_trace : trace st' = trace st;
  frame_heap : heap st `prefix_of` heap st';
  frame_obj : forall l, ~ W l -> obj st' !! l = obj st !! l
}.

(** What an action leaves in the field [v], [st0] being the state
    before the loop and [st'] the state after it. *)
Definition effect (v : Loc) (a : Action) (st0 st' : State) : Prop :=
  match a with
  | Skip => obj st' !! v = obj st0 !! v
  | Stop _ => True
  | Put x => obj st' !! v = Some x
  | PutAddr c =>
      exists a : nat, obj st' !! v = Some (GPtr (Some a))
        /\ length (heap st0) <= a /\ heap st' !! a = Some c
  end.

(** The sequence a sequence field receives. *)
Definition sequence_action (a : Flag) (s : option (list string)) : Action :=
  let s := if Changed a && (len s =? 0)%nat then Some [""] else s in
  match s with
  | Some l => Put (GSlice (Some l))
  | None => Skip
  end.

Definition decide_slices (fs : gmap string Flag) (k : string) : Action :=
  match fs !! contextKey k with
  | None => Stop (RErr (ErrNotDefined (contextKey k)))
  | Some a =>
      match Value a with
      | Own (VStringSlice s) => sequence_action a s
      | _ => Stop (RErr (ErrType "stringSlice" (contextKey k)))
      end
  end.

Definition decide_arrays (fs : gmap string Flag) (k : string) : Action :=
  match fs !! contextKey k with
  | None => Stop (RErr (ErrNotDefined (contextKey k)))
  | Some a =>
      match Value a with
      | Own (VStringArray s) => sequence_action a s
      | _ => Stop (RErr (ErrType "stringArray" (contextKey k)))
      end
  end.

Definition decide_maps (fs : gmap string Flag) (k : string) : Action :=
  match fs !! contextKey k with
  | None => Stop (RErr (ErrNotDefined (contextKey k)))
  | Some a =>
      match Value a with
      | Own (VStringSlice (Some parts)) => Put (GMap (Some (parseParts parts)))
      | Own (VStringSlice None) => Skip
      | _ => Stop (RErr (ErrType "stringSlice" (contextKey k)))
      end
  end.

(** For the optional kinds: a flag with a variable of its own. *)
Definition owned (fs : gmap string Flag) (k : string) : Prop :=
  forall f l, fs !! contextKey k = Some f -> Value f <> Bound l.

Definition always (fs : gmap string Flag) (k : string) : Prop := True.

(** The variable an optional field of one kind receives for the value
    of its flag. *)
Definition int_cell (x : FlagVal) : option Cell :=
  match x with VInt i => Some (CInt i) | _ => None end.
Definition bool_cell (x : FlagVal) : option Cell :=
  match x with VBool i => Some (CBool i) | _ => None end.
Definition string_cell (x : FlagVal) : option Cell :=
  match x with VString i => Some (CString i) | _ => None end.

Definition decide_opt (cell : FlagVal -> option Cell) (want : string)
    (fs : gmap string Flag) (k : string) : Action :=
  match fs !! contextKey k with
  | None => Stop RPanic
  | Some f =>
      if negb (Changed f) then Skip
      else match Value f with
           | Own x =>
               match cell x with
               | Some c => PutAddr c
               | None => Stop (RErr (ErrType want (contextKey k)))
               end
           | Bound _ => Stop (RErr (ErrType want (contextKey k)))
           end
  end.

(** What a write-back step for optionals leaves in the field [v] of a
    flag [f] that holds [c]: the field as it was when the flag was not
    changed, and otherwise the address of a variable that did not
    exist before the step and that holds [c]. *)
Definition optional_written (st st' : State) (v : Loc) (f : Flag) (c : Cell) : Prop :=
  (Changed f = false -> obj st' !! v = obj st !! v)
  /\ (Changed f = true ->
        exists a : nat, obj st' !! v = Some (GPtr (Some a))
          /\ length (heap st) <= a /\ heap st' !! a = Some c).

(** Different fields of changed flags refer to different variables. *)
Definition distinct_variables (m : list (string * Loc)) (st st' : State) : Prop :=
  forall k1 v1 f1 a1 k2 v2 f2 a2,
    (k1, v1) ∈ m -> (k2, v2) ∈ m -> v1 <> v2 ->
    flags st !! contextKey k1 = Some f1 -> Changed f1 = true ->
    flags st !! contextKey k2 = Some f2 -> Changed f2 = true ->
    obj st' !! v1 = Some (GPtr (Some a1)) ->
    obj st' !! v2 = Some (GPtr (Some a2)) ->
    a1 <> a2.

(** The write-back steps of a hook in their order. *)
Definition writeback
    (arrays slices maps optInt optBool optString : list (string * Loc))
    : list (Step * list (string * Loc) * (State -> State * Result)) :=
  [ (SArrays, arrays, assignArrays arrays);
    (SSlices, slices, assignSlices slices);
    (SMaps, maps, assignMaps maps);
    (SOptInt, optInt, assignOptInt optInt);
    (SOptBool, optBool, assignOptBool optBool);
    (SOptString, optString, assignOptString optString) ].

(** Running a list of steps: the first result that is not [ROk] ends
    the run. *)
Fixpoint run (steps : list (Step * list (string * Loc) * (State -> State * Result)))
    (st : State) : State * Result :=
  match steps with
  | [] => (st, ROk)
  | (s, _, f) :: steps' =>
      match step s f st with
      | (st', ROk) => run steps' st'
      | r => r
      end
  end.

(** The fields a list of steps writes. *)
Definition targets (steps : list (Step * list (string * Loc) * (State -> State * Result)))
    : list Loc :=
  concat (map (fun x => (x.1.2).*2) steps).

(** Whether a string has the byte [c]. *)
Fixpoint has_byte (c : ascii) (s : string) : bool :=
  match s with
  | EmptyString => false
  | String c' s' => Ascii.eqb c' c || has_byte c s'
  end.

(** What one declared field contributes to [fields]: the [if] of the
    loop, for the field [f] at index [i]. *)
Definition fields_at (base : Loc) (i : nat) (f : StructField) : list fieldInfo :=
  if Anonymous f && bool_decide (TypeKind (Type_ f) = reflect.Struct)
  then fields (Type_ f) (base ++ [i])
  else if negb (Anonymous f)
  then [mkFieldInfo f (base ++ [i])]
  else [].

(** The kinds the [switch] of [New] has a branch for. *)
Definition supported (t : GoType) : bool :=
  match TypeKind t with
  | reflect.Int | reflect.Int64 | reflect.String | reflect.Bool
  | reflect.Slice | reflect.Map => true
  | reflect.Pointer =>
      match ElemKind t with
      | reflect.Int | reflect.String | reflect.Bool => true
      | _ => false
      end
  | _ => false
  end.

(** What a write-back step for sequences leaves in the field [v] of a
    flag [f] whose getter returns [s]. *)
Definition sequence_written (st st' : State) (v : Loc) (f : Flag)
    (s : option (list string)) : Prop :=
  (Changed f = true -> len s = 0%nat -> obj st' !! v = Some (GSlice (Some [""])))
  /\ (Changed f = true -> forall l, s = Some l -> l <> [] ->
        obj st' !! v = Some (GSlice (Some l)))
  /\ (Changed f = false -> forall l, s = Some l ->
        obj st' !! v = Some (GSlice (Some l)))
  /\ (Changed f = false -> s = None -> obj st' !! v = obj st !! v).

(** The flag name [New] gives a field. *)
Definition flag_name (f : StructField) : string :=
  (name (Name f) (TagGet (FieldTag f) "name") (TagGet (FieldTag f) "short")).1.

(** The default of an integer flag: [defInt] of [New]. *)
Definition defInt_of (f : StructField) : Z :=
  match Atoi (TagGet (FieldTag f) "default") with
  | Some n => n
  | None => 0%Z
  end.

(** A flag as [IntP], [StringP] and [BoolP] create it: it holds its
    default and is not changed. *)
Definition registered (st : State) (nm : string) (d : FlagVal) : Prop :=
  exists f, flags st !! nm = Some f
    /\ DefValue f = d /\ Value f = Own d /\ Changed f = false.

(** The names of the [env] tag of a field: [env] of [New] after the
    test for the empty tag. *)
Definition declared_env (f : StructField) : list string :=
  let env := Split (TagGet (FieldTag f) "env") "," in
  if (length env =? 1)%nat && bool_decide (nth 0 env "" = "") then [] else env.

(** Every step of a list writes only the fields of its map. *)
Definition framed (steps : list (Step * list (string * Loc) * (State -> State * Result)))
    : Prop :=
  forall s m f, (s, m, f) ∈ steps ->
    forall st, frame (fun l => l ∈ m.*2) st (f st).1.

(** The order of a hook that runs to its end. *)
Definition hook_order : list Step :=
  [SEnv; SArrays; SSlices; SMaps; SOptInt; SOptBool; SOptString; SNext].

(** ** Inputs of the examples *)

(** A state with the record [o]: no flags, nothing allocated, an empty
    environment. *)
Definition a_state (o : gmap Loc GoVal) : State :=
  mkState o [] ∅ ∅ [].

(** What [New] leaves of the state, the command it builds and the
    closures of that command; for a record on which [New] panics, the
    state it was given and the empty command. *)
Definition New_state (lv : LoopVar) (t : GoType) (st : State) : State :=
  match New lv t st with
  | Some (_, st') => st'
  | None => st
  end.

Definition New_command (lv : LoopVar) (t : GoType) (st : State) : Command :=
  match New lv t st with
  | Some (c, _) => c
  | None => Command_empty
  end.

Definition New_envs (lv : LoopVar) (t : GoType) (st : State) : list EnvCallback :=
  envs (New_command lv t st).

(** The state after the parser has found the flag [nm] on the command
    line with the value [v]: the flag holds [v] and is marked as
    changed. *)
Definition parsed (nm : string) (v : FlagVal) (st : State) : State :=
  match flags st !! nm with
  | None => st
  | Some f =>
      match Value f, v with
      | Own _, _ => set_flags (fun fs => <[nm := changed (holding v f)]> fs) st
      | Bound l, VInt n =>
          set_flags (fun fs => <[nm := changed f]> fs)
            (set_obj (fun o => <[l := GInt n]> o) st)
      | Bound l, VString s =>
          set_flags (fun fs => <[nm := changed f]> fs)
            (set_obj (fun o => <[l := GString s]> o) st)
      | Bound l, VBool b =>
          set_flags (fun fs => <[nm := changed f]> fs)
            (set_obj (fun o => <[l := GBool b]> o) st)
      | Bound _, _ => st
      end
  end.

(** The state with the variable [key] of the environment set. *)
Definition setenv (key value : string) (st : State) : State :=
  mkState (obj st) (heap st) (flags st) (<[key := value]> (environ st)) (trace st).

(** A command body that returns no error. *)
Definition body_ok : Hook := fun _ st => (st, ROk).

(** [type Tagging struct { Tags []string }], a record of it whose
    field holds one element, and the command of that record when
    [--tags] is not on the command line. *)
Definition Tagging : GoType :=
  TStruct "Tagging" [mkStructField "Tags" false [] (TKind reflect.Slice)].

Definition tags_unset : State :=
  New_state PerIteration Tagging (a_state {[ [0%nat] := GSlice (Some ["x"]) ]}).

(** The same command after [--tags=] with an empty value. *)
Definition tags_empty : State :=
  parsed "tags" (VStringSlice (Some [])) tags_unset.

(** [type Listing struct { Tags []string `split:"false"` }] and its
    command after [--tags=]. *)
Definition Listing : GoType :=
  TStruct "Listing"
    [mkStructField "Tags" false [("split", "false")] (TKind reflect.Slice)].

Definition tags_array_empty : State :=
  parsed "tags" (VStringArray (Some []))
    (New_state PerIteration Listing (a_state {[ [0%nat] := GSlice None ]})).

(** [type Run struct { Debug *bool `default:"true"`;
    Level *int `default:"7"`; Tag *string `default:"v1"` }] and a
    record of it with the three optionals absent. *)
Definition Run : GoType :=
  TStruct "Run"
    [ mkStructField "Debug" false [("default", "true")] (TPtr (TKind reflect.Bool));
      mkStructField "Level" false [("default", "7")] (TPtr (TKind reflect.Int));
      mkStructField "Tag" false [("default", "v1")] (TPtr (TKind reflect.String)) ].

Definition Run_zero : State :=
  a_state {[ [0%nat] := GPtr None; [1%nat] := GPtr None; [2%nat] := GPtr None ]}.

(** The command of [Run] after [--debug=false --level=3]: [debug] was
    given the value that is its default, [tag] was not given. *)
Definition optionals_before : State :=
  parsed "level" (VInt 3)
    (parsed "debug" (VBool false) (New_state PerIteration Run Run_zero)).

(** The command of [Run] after [--tag=v1], which gives [tag] its
    default value explicitly. *)
Definition run_tag_default : State :=
  parsed "tag" (VString "v1") (New_state PerIteration Run Run_zero).

(** [type Labelled struct { Labels map[string]string }] and its
    command after [--labels a=1,b]. *)
Definition Labelled : GoType :=
  TStruct "Labelled" [mkStructField "Labels" false [] (TKind reflect.Map)].

Definition labels_given : State :=
  parsed "labels" (VStringSlice (Some ["a=1"; "b"]))
    (New_state PerIteration Labelled (a_state {[ [0%nat] := GMap None ]})).

(** [type Common struct { Verbose bool }] and
    [type Opts struct { *Common; _Legacy string; Level int }]. *)
Definition Common : GoType :=
  TStruct "Common" [mkStructField "Verbose" false [] (TKind reflect.Bool)].

Definition Opts : GoType :=
  TStruct "Opts"
    [ mkStructField "Common" true [] (TPtr Common);
      mkStructField "_Legacy" false [] (TKind reflect.String);
      mkStructField "Level" false [] (TKind reflect.Int) ].

(** [type Build struct { Common; Target string; jobs int }]: the
    struct [Common] embedded by value. *)
Definition Build : GoType :=
  TStruct "Build"
    [ mkStructField "Common" true [] Common;
      mkStructField "Target" false [] (TKind reflect.String);
      mkStructField "jobs" false [] (TKind reflect.Int) ].

(** [type Scale struct { Ratio *float64 }]. *)
Definition Scale : GoType :=
  TStruct "Scale" [mkStructField "Ratio" false [] (TPtr (TKind reflect.Float64))].

(** [type Plot struct { Ratio float64 }]. *)
Definition Plot : GoType :=
  TStruct "Plot" [mkStructField "Ratio" false [] (TKind reflect.Float64)].

(** [type Tagged struct { TagName string `env:"MY_TAG" default:"v1"` }]. *)
Definition Tagged : GoType :=
  TStruct "Tagged"
    [mkStructField "TagName" false [("env", "MY_TAG"); ("default", "v1")]
       (TKind reflect.String)].

(** The command of [Tagged] with [MY_TAG=v2] in the environment and no
    flag on the command line. *)
Definition tagged_env : State :=
  setenv "MY_TAG" "v2" (New_state PerIteration Tagged (a_state ∅)).

(** The same after the command line [--tag-name=v3]. *)
Definition tagged_env_flag : State :=
  parsed "tag-name" (VString "v3") tagged_env.

(** The same after the command line [--tag-name=] with an empty
    value. *)
Definition tagged_env_empty : State :=
  parsed "tag-name" (VString "") tagged_env.

(** [type Leveled struct { Level int `env:"LEVEL"` }] and its command
    with [LEVEL=7] in the environment and no flag on the command
    line. *)
Definition Leveled : GoType :=
  TStruct "Leveled"
    [mkStructField "Level" false [("env", "LEVEL")] (TKind reflect.Int)].

Definition leveled_env : State :=
  setenv "LEVEL" "7" (New_state PerIteration Leveled (a_state ∅)).

(** [type Fallback struct { Tag string `env:"A,B" default:"d"` }] and
    its command with [A=d] and [B=x] in the environment. *)
Definition Fallback : GoType :=
  TStruct "Fallback"
    [mkStructField "Tag" false [("env", "A,B"); ("default", "d")]
       (TKind reflect.String)].

Definition fallback_env (lv : LoopVar) : State :=
  setenv "B" "x" (setenv "A" "d" (New_state lv Fallback (a_state ∅))).

(** [type Mixed struct { Tags []string; Alias *string `name:"x,tag"`;
    Tag int }] and its command after [--tags= --tag=5].  The optional
    string is registered as [x,tag] and looked up as [tag], the name of
    the integer flag. *)
Definition Mixed : GoType :=
  TStruct "Mixed"
    [ mkStructField "Tags" false [] (TKind reflect.Slice);
      mkStructField "Alias" false [("name", "x,tag")] (TPtr (TKind reflect.String));
      mkStructField "Tag" false [] (TKind reflect.Int) ].

Definition mismatch : State :=
  parsed "tag" (VInt 5)
    (parsed "tags" (VStringSlice (Some []))
       (New_state PerIteration Mixed
          (a_state {[ [0%nat] := GSlice None; [1%nat] := GPtr None;
                      [2%nat] := GInt 0 ]}))).

(** ** Further definitions: strings *)

(** [strings.Join(l, sep)] for a separator of one byte. *)
Fixpoint Join (l : list string) (sep : ascii) : string :=
  match l with
  | [] => EmptyString
  | [p] => p
  | p :: l' => (p ++ String sep (Join l' sep))%string
  end.

(** The last element of [strings.Split(s, sep)]. *)
Definition last_segment (s : string) (sep : ascii) : string :=
  let parts := Split s sep in
  nth (length parts - 1) parts "".

(** Whether a string has an upper-case letter of ASCII. *)
Fixpoint has_upper (s : string) : bool :=
  match s with
  | EmptyString => false
  | String c s' => is_upper c || has_upper s'
  end.

(** Whether somewhere in the string a lower-case letter is followed
    at once by an upper-case letter: a match of [caseRegexp]. *)
Fixpoint has_camel (s : string) : bool :=
  match s with
  | EmptyString => false
  | String a t =>
      match t with
      | EmptyString => false
      | String b _ => (is_lower a && is_upper b) || has_camel t
      end
  end.

(** ** Further definitions: [New] *)

(** The fields on which the [switch] of [New] panics: bound fields of
    a kind that has no branch and is not a pointer. *)
Definition panics (f : StructField) : bool :=
  exported f && negb (supported (Type_ f))
  && negb (bool_decide (TypeKind (Type_ f) = reflect.Pointer)).

(** A flag as [IntVarP], [StringVarP] and [BoolVarP] create it: it
    keeps its value in the field at [v] and is not changed. *)
Definition bound_to (st : State) (nm : string) (v : Loc) : Prop :=
  exists f, flags st !! nm = Some f /\ Value f = Bound v /\ Changed f = false.

(** ** Further definitions: the overlay *)

Definition same_kind (x y : FlagVal) : bool :=
  match x, y with
  | VInt _, VInt _ | VString _, VString _ | VBool _, VBool _
  | VStringSlice _, VStringSlice _ | VStringArray _, VStringArray _ => true
  | _, _ => false
  end.

(** Two flags that keep a value of the same type in the same place. *)
Definition same_store (a b : FlagStore) : bool :=
  match a, b with
  | Own x, Own y => same_kind x y
  | Bound l, Bound l' => bool_decide (l = l')
  | _, _ => false
  end.

(** What may differ between a flag before and after the overlay: the
    value, and that it has become changed. *)
Definition flag_kept (f f' : Flag) : Prop :=
  same_store (Value f) (Value f') = true
  /\ DefValue f' = DefValue f /\ Shorthand f' = Shorthand f
  /\ Usage f' = Usage f /\ Local f' = Local f
  /\ (Changed f = true -> Changed f' = true).

(** The state [st'] differs from [st] at most in the flags [names] and
    in the fields these flags are bound to. *)
Record overlaid (names : list string) (st st' : State) : Prop := mkOverlaid {
  overlaid_environ : environ st' = environ st;
  overlaid_heap : heap st' = heap st;
  overlaid_trace : trace st' = trace st;
  overlaid_flags : forall nm, option_Forall2 flag_kept (flags st !! nm) (flags st' !! nm);
  overlaid_others : forall nm, nm ∉ names -> flags st' !! nm = flags st !! nm;
  overlaid_obj : forall l,
    (forall nm f, nm ∈ names -> flags st !! nm = Some f -> Value f <> Bound l) ->
    obj st' !! l = obj st !! l
}.

(** ** Further definitions: the write-back steps *)

(** The steps for sequences and mappings, each with the getter it
    calls. *)
Definition sequence_steps
    : list ((list (string * Loc) -> State -> State * Result)
            * (State -> string -> Error + option (list string))) :=
  [ (assignArrays, GetStringArray);
    (assignSlices, GetStringSlice);
    (assignMaps, GetStringSlice) ].

(** The steps for optionals, each with the values it accepts and the
    type its getter asks for. *)
Definition optional_steps
    : list ((list (string * Loc) -> State -> State * Result)
            * (FlagVal -> option Cell) * string) :=
  [ (assignOptInt, int_cell, "int");
    (assignOptBool, bool_cell, "bool");
    (assignOptString, string_cell, "string") ].

(** The state [st'] differs from [st] at most in the fields [W] of the
    record, in variables allocated since and in the recorded steps. *)
Record written (W : Loc -> Prop) (st st' : State) : Prop := mkWritten {
  written_flags : flags st' = flags st;
  written_environ : environ st' = environ st;
  written_heap : heap st `prefix_of` heap st';
  written_obj : forall l, ~ W l -> obj st' !! l = obj st !! l
}.

(** ** Further definitions: a command whose flags fit its maps *)

Definition is_array (x : FlagVal) : bool :=
  match x with VStringArray _ => true | _ => false end.
Definition is_slice (x : FlagVal) : bool :=
  match x with VStringSlice _ => true | _ => false end.
Definition is_int (x : FlagVal) : bool :=
  match x with VInt _ => true | _ => false end.
Definition is_bool (x : FlagVal) : bool :=
  match x with VBool _ => true | _ => false end.
Definition is_string (x : FlagVal) : bool :=
  match x with VString _ => true | _ => false end.

(** Every name of the map [m] has a flag with a variable of its own
    that holds a value of the type [K]. *)
Definition holds (K : FlagVal -> bool) (fs : gmap string Flag)
    (m : gmap string Loc) : Prop :=
  forall k v, m !! k = Some v ->
    exists f x, fs !! k = Some f /\ Value f = Own x /\ K x = true.

(** The flags [fs] fit the maps of the command [c]: a string-array
    flag for every name of [arrays], a string-slice flag for every
    name of [slices] and [maps], an int, bool or string flag for every
    name of [optInt], [optBool] and [optString]. *)
Definition typed (c : Command) (fs : gmap string Flag) : Prop :=
  holds is_array fs (arrays c) /\ holds is_slice fs (slices c)
  /\ holds is_slice fs (maps c) /\ holds is_int fs (optInt c)
  /\ holds is_bool fs (optBool c) /\ holds is_string fs (optString c).

(** The names in the six maps of a command. *)
Definition keys (c : Command) : gset string :=
  dom (arrays c) ∪ dom (slices c) ∪ dom (maps c)
  ∪ dom (optInt c) ∪ dom (optBool c) ∪ dom (optString c).

(** The flag names of the fields [New] does not skip, in the order of
    the fields. *)
Definition flag_names (t : GoType) : list string :=
  map (fun info => flag_name (FieldType info)) (bindable t []).

(** The entries of a list are entries of the map. *)
Definition drawn (m : gmap string Loc) (l : list (string * Loc)) : Prop :=
  forall k v, (k, v) ∈ l -> m !! k = Some v.

(** ** [RegisterFlag] and [expandRegisteredFlags] *)

(** [flagOverrides]: for a command line the flags registered for it,
    in the order of registration.  [F] stands for [*pflag.Flag]. *)
Definition RegisterFlag {F : Type} (cmdline : string) (flag : F)
    (flagOverrides : gmap string (list F)) : gmap string (list F) :=
  <[cmdline := default [] (flagOverrides !! cmdline) ++ [flag]]> flagOverrides.

(** The white space of ASCII, as [unicode.IsSpace] has it. *)
Definition is_space (c : ascii) : bool :=
  let n := byte_of c in
  ((9 <=? n)%nat && (n <=? 13)%nat) || (n =? 32)%nat.

(** [strings.Fields] on a text written in ASCII: the maximal runs of
    bytes that are not white space; [word] is the run being read. *)
Fixpoint Fields_from (s : string) (word : string) : list string :=
  match s with
  | EmptyString => if bool_decide (word = "") then [] else [word]
  | String c s' =>
      if is_space c
      then if bool_decide (word = "") then Fields_from s' ""
           else word :: Fields_from s' ""
      else Fields_from s' (word ++ String c "")%string
  end.

Definition Fields (s : string) : list string := Fields_from s "".

(** [expandRegisteredFlags(cmd)] over the entries of [flagOverrides]
    in the order the runtime visits them.  [Traverse args] is
    [cmd.Traverse(args)]: the subcommand found, or [None] for an
    error; the result lists the calls [subCmd.Flags().AddFlag(flag)]
    in order.  [None]: the slice expression [args[1:]] panics. *)
Fixpoint expandRegisteredFlags {S F : Type} (Traverse : list string -> option S)
    (entries : list (string * list F)) (added : list (S * F)) : option (list (S * F)) :=
  match entries with
  | [] => Some added
  | (arg, flags) :: entries' =>
      match Fields arg with
      | [] => None
      | _ :: args1 =>
          match Traverse args1 with
          | None => expandRegisteredFlags Traverse entries' added
          | Some subCmd =>
              expandRegisteredFlags Traverse entries'
                (added ++ map (fun flag => (subCmd, flag)) flags)
          end
      end
  end.

(** The registrations of a program, one after the other. *)
Definition RegisterFlags {F : Type} (regs : list (string * F)) : gmap string (list F) :=
  fold_left (fun o r => RegisterFlag r.1 r.2 o) regs ∅.

(** Whether a text has only white space. *)
Fixpoint blank (s : string) : bool :=
  match s with
  | EmptyString => true
  | String c s' => is_space c && blank s'
  end.

(** Whether a text has no white space. *)
Fixpoint spaceless (s : string) : bool :=
  match s with
  | EmptyString => true
  | String c s' => negb (is_space c) && spaceless s'
  end.

(** ** [Name] *)

(** What is left of [s] behind the prefix [p]. *)
Fixpoint strip_prefix (p s : string) : option string :=
  match p, s with
  | EmptyString, _ => Some s
  | String a p', String b s' => if Ascii.eqb a b then strip_prefix p' s' else None
  | String _ _, EmptyString => None
  end.

(** [strings.Replace(s, old, "", 1)] for an [old] that is not empty:
    the first occurrence of [old] is cut out. *)
Fixpoint Replace1 (s old : string) : string :=
  match strip_prefix old s with
  | Some rest => rest
  | None =>
      match s with
      | EmptyString => EmptyString
      | String c s' => String c (Replace1 s' old)
      end
  end.

(** [objValue.Type().Name()]. *)
Definition TypeName (t : GoType) : string :=
  match t with
  | TStruct n _ => n
  | _ => ""
  end.

(** [Name(obj)], [obj] pointing to a value of type [t]. *)
Definition CommandName (t : GoType) : string :=
  let commandName := Replace1 (TypeName t) "Command" in
  (name commandName "" "").1.

(** ** [contextualize] *)

Section Contextualize.

(** [O] stands for the struct [CliOptions], [CM], [L] and [IO] for
    the config manager, the logger and the I/O streams; an option is a
    function that updates the struct it is given. *)
Variables O CM L IO : Type.

(** [&CliOptions{}]. *)
Variable zero : O.

(** [WithDefaultConfigManager()], ..., [WithDefaultHTTPClient()], in
    the order of the literal. *)
Variable defaults : list (O -> O).

(** [copts.configManager()], [None] for an error; [copts.logger] and
    [copts.ioStreams], [None] for [nil]. *)
Variable configManager : O -> option CM.
Variable logger : O -> option L.
Variable ioStreams : O -> option IO.

(** The values a context carries for the three keys. *)
Record Context : Type := mkContext {
  ctx_config : option CM;
  ctx_logger : option L;
  ctx_iostreams : option IO
}.

(** [for _, o := range opts { o(copts) }]. *)
Definition apply_options (opts : list (O -> O)) (copts : O) : O :=
  fold_left (fun copts o => o copts) opts copts.

(** [contextualize(ctx, opts...)]; the first component is the global
    [defaultOptions] before and after the call.  [copts] is the same
    pointer as [defaultOptions], so what the options write is written
    to the cache. *)
Definition contextualize (defaultOptions : option O) (ctx : Context)
    (opts : list (O -> O)) : option O * Context :=
  let defaultOptions :=
    match defaultOptions with
    | None => apply_options defaults zero
    | Some d => d
    end in
  let copts := apply_options opts defaultOptions in
  let ctx :=
    match configManager copts with
    | Some cfgm => mkContext (Some cfgm) (ctx_logger ctx) (ctx_iostreams ctx)
    | None => ctx
    end in
  let ctx :=
    match logger copts with
    | Some l => mkContext (ctx_config ctx) (Some l) (ctx_iostreams ctx)
    | None => ctx
    end in
  let ctx :=
    match ioStreams copts with
    | Some s => mkContext (ctx_config ctx) (ctx_logger ctx) (Some s)
    | None => ctx
    end in
  (Some copts, ctx).

(** The cache after a series of calls, each with its context and its
    options. *)
Definition contextualize_all (defaultOptions : option O)
    (calls : list (Context * list (O -> O))) : option O :=
  fold_left (fun cache call => (contextualize cache call.1 call.2).1)
            calls defaultOptions.

End Contextualize.

Arguments mkContext {CM L IO}.
Arguments ctx_config {CM L IO}.
Arguments ctx_logger {CM L IO}.
Arguments ctx_iostreams {CM L IO}.
Arguments apply_options {O}.
Arguments contextualize {O CM L IO}.
Arguments contextualize_all {O CM L IO}.

(** ** Package [component]: the options of a component *)

Module component.

(** [ComponentConfig] as far as the options touch it: [C] and [T]
    stand for [context.Context] and [unikraft.ComponentType], [R] for
    the fields the options do not name. *)
Record ComponentConfig (C T R : Type) : Type := mkComponentConfig {
  workdir : string;
  ctx : C;
  ctype : T;
  others : R
}.

Arguments mkComponentConfig {C T R}.
Arguments workdir {C T R}.
Arguments ctx {C T R}.
Arguments ctype {C T R}.
Arguments others {C T R}.

(** [ComponentOption]: the updated config and the error, [None] for
    [nil]. *)
Definition ComponentOption (C T R : Type) : Type :=
  ComponentConfig C T R -> ComponentConfig C T R * option Error.

Definition WithWorkdir {C T R : Type} (path : string) : ComponentOption C T R :=
  fun cc => (mkComponentConfig path (ctx cc) (ctype cc) (others cc), None).

Definition WithContext {C T R : Type} (c : C) : ComponentOption C T R :=
  fun cc => (mkComponentConfig (workdir cc) c (ctype cc) (others cc), None).

Definition WithType {C T R : Type} (t : T) : ComponentOption C T R :=
  fun cc => (mkComponentConfig (workdir cc) (ctx cc) t (others cc), None).

(** A sequence of options run in order on one config, up to the first
    error. *)
Fixpoint in_turn {C T R : Type} (opts : list (ComponentOption C T R))
    (cc : ComponentConfig C T R) : ComponentConfig C T R * option Error :=
  match opts with
  | [] => (cc, None)
  | o :: opts' =>
      match o cc with
      | (cc', None) => in_turn opts' cc'
      | r => r
      end
  end.

(** The options this file defines. *)
Inductive Given (C T : Type) : Type :=
| GWorkdir (path : string)
| GContext (c : C)
| GType (t : T).

Arguments GWorkdir {C T}.
Arguments GContext {C T}.
Arguments GType {C T}.

Definition option_of {C T R : Type} (g : Given C T) : ComponentOption C T R :=
  match g with
  | GWorkdir path => WithWorkdir path
  | GContext c => WithContext c
  | GType t => WithType t
  end.

Definition given_workdir {C T : Type} (g : Given C T) : option string :=
  match g with GWorkdir p => Some p | _ => None end.

Definition given_ctx {C T : Type} (g : Given C T) : option C :=
  match g with GContext c => Some c | _ => None end.

Definition given_ctype {C T : Type} (g : Given C T) : option T :=
  match g with GType t => Some t | _ => None end.

(** The last value of a list that [pick] accepts, [d] when there is
    none. *)
Definition last_given {A B : Type} (pick : A -> option B) (d : B) (l : list A) : B :=
  default d (last (omap pick l)).

End component.

(** ** The hooks [New] installs *)

(** The object passed to [New]: its [Run] method, and its [Pre] and
    [PersistentPre] methods when it has them. *)
Record Runnable : Type := mkRunnable {
  obj_Run : Hook;
  obj_Pre : option Hook;
  obj_PersistentPre : option Hook
}.

(** The three callables of a [cobra.Command] that [New] assigns,
    [None] for [nil]. *)
Record Hooks : Type := mkHooks {
  PersistentPreRunE : option Hook;
  PreRunE : option Hook;
  hooks_RunE : option Hook
}.

(** The end of [New]: [c] starts as a copy of [cmd], and each of its
    three callables ends behind [bind].  The context of the command is
    not part of [State]; [setContext] stands for
    [cmd.SetContext(contextualize(cmd.Context(), opts...))]. *)
Definition New_hooks (obj : Runnable) (cmd : Hooks) (setContext : State -> State)
    (arrays slices maps optInt optBool optString : list (string * Loc))
    (envs : list EnvCallback) : Hooks :=
  let c_PersistentPreRunE : option Hook :=
    match obj_PersistentPre obj with
    | Some p => Some (fun args st => p args (setContext st))
    | None => Some (fun args st => (setContext st, ROk))
    end in
  let c_PreRunE : option Hook :=
    match obj_Pre obj with
    | Some p => Some p
    | None => PreRunE cmd
    end in
  let c_RunE : option Hook := Some (obj_Run obj) in
  mkHooks
    (bind c_PersistentPreRunE arrays slices maps optInt optBool optString envs)
    (bind c_PreRunE arrays slices maps optInt optBool optString envs)
    (bind c_RunE arrays slices maps optInt optBool optString envs).
(** * Properties *)

(** ** Frames *)

Lemma frame_refl W st : frame W st st.
Proof. by constructor. Qed.

Lemma frame_weaken (W W' : Loc -> Prop) st st' :
  (forall l, W l -> W' l) -> frame W st st' -> frame W' st st'.
Proof.
  intros HW [Hf He Ht Hh Ho].
  constructor; auto.
Qed.

Lemma frame_trans (W1 W2 : Loc -> Prop) st1 st2 st3 :
  frame W1 st1 st2 -> frame W2 st2 st3 ->
  frame (fun l => W1 l \/ W2 l) st1 st3.
Proof.
  intros [Hf1 He1 Ht1 Hh1 Ho1] [Hf2 He2 Ht2 Hh2 Ho2].
  constructor; try congruence.
  - by etrans.
  - intros l Hl. rewrite Ho2, Ho1; tauto.
Qed.

Lemma frame_fieldSet v x st : frame (eq v) st (fieldSet v x st).
Proof.
  constructor; simpl; try done.
  intros l Hl. by rewrite lookup_insert_ne.
Qed.

Lemma frame_fieldSetAddr v c st : frame (eq v) st (fieldSetAddr v c st).
Proof.
  constructor; simpl; try done.
  - by apply prefix_app_r.
  - intros l Hl. by rewrite lookup_insert_ne.
Qed.

Lemma frame_perform v a st : frame (eq v) st (perform v a st).1.
Proof.
  destruct a; simpl; auto using frame_refl, frame_fieldSet, frame_fieldSetAddr.
Qed.

(** ** The bodies of the loops follow the flag table *)

Lemma assignSlices_body_decide k v st :
  assignSlices_body k v st = perform v (decide_slices (flags st) k) st.
Proof.
  unfold assignSlices_body, decide_slices, GetStringSlice, Lookup, current.
  destruct (flags st !! contextKey k) as [f|] eqn:Hf; [|done].
  destruct (Value f) as [[]|l]; try done.
  - unfold sequence_action.
    destruct (Changed f && (len s =? 0)%nat); [done|]. by destruct s.
  - by destruct (obj st !! l) as [[]|].
Qed.

Lemma assignArrays_body_decide k v st :
  assignArrays_body k v st = perform v (decide_arrays (flags st) k) st.
Proof.
  unfold assignArrays_body, decide_arrays, GetStringArray, Lookup, current.
  destruct (flags st !! contextKey k) as [f|] eqn:Hf; [|done].
  destruct (Value f) as [[]|l]; try done.
  - unfold sequence_action.
    destruct (Changed f && (len s =? 0)%nat); [done|]. by destruct s.
  - by destruct (obj st !! l) as [[]|].
Qed.

Lemma assignMaps_body_decide k v st :
  assignMaps_body k v st = perform v (decide_maps (flags st) k) st.
Proof.
  unfold assignMaps_body, decide_maps, GetStringSlice, Lookup, current.
  destruct (flags st !! contextKey k) as [f|] eqn:Hf; [|done].
  destruct (Value f) as [[]|l]; try done.
  - by destruct s.
  - by destruct (obj st !! l) as [[]|].
Qed.

Lemma assignOptInt_body_decide k v st :
  owned (flags st) k ->
  assignOptInt_body k v st = perform v (decide_opt int_cell "int" (flags st) k) st.
Proof.
  unfold owned, assignOptInt_body, decide_opt, GetInt, Lookup, current.
  intros Hown.
  destruct (flags st !! contextKey k) as [f|] eqn:Hf; [|done].
  destruct (negb (Changed f)); [done|].
  destruct (Value f) as [[]|l] eqn:Hv; try done.
  by destruct (Hown f l).
Qed.

Lemma assignOptBool_body_decide k v st :
  owned (flags st) k ->
  assignOptBool_body k v st = perform v (decide_opt bool_cell "bool" (flags st) k) st.
Proof.
  unfold owned, assignOptBool_body, decide_opt, GetBool, Lookup, current.
  intros Hown.
  destruct (flags st !! contextKey k) as [f|] eqn:Hf; [|done].
  destruct (negb (Changed f)); [done|].
  destruct (Value f) as [[]|l] eqn:Hv; try done.
  by destruct (Hown f l).
Qed.

Lemma assignOptString_body_decide k v st :
  owned (flags st) k ->
  assignOptString_body k v st = perform v (decide_opt string_cell "string" (flags st) k) st.
Proof.
  unfold owned, assignOptString_body, decide_opt, GetString, Lookup, current.
  intros Hown.
  destruct (flags st !! contextKey k) as [f|] eqn:Hf; [|done].
  destruct (negb (Changed f)); [done|].
  destruct (Value f) as [[]|l] eqn:Hv; try done.
  by destruct (Hown f l).
Qed.

Lemma frame_assignOptInt_body k v st : frame (eq v) st (assignOptInt_body k v st).1.
Proof.
  unfold assignOptInt_body.
  destruct (Lookup st (contextKey k)) as [f|]; [|apply frame_refl].
  destruct (negb (Changed f)); [apply frame_refl|].
  destruct (GetInt st (contextKey k)); [apply frame_refl|apply frame_fieldSetAddr].
Qed.

Lemma frame_assignOptBool_body k v st : frame (eq v) st (assignOptBool_body k v st).1.
Proof.
  unfold assignOptBool_body.
  destruct (Lookup st (contextKey k)) as [f|]; [|apply frame_refl].
  destruct (negb (Changed f)); [apply frame_refl|].
  destruct (GetBool st (contextKey k)); [apply frame_refl|apply frame_fieldSetAddr].
Qed.

Lemma frame_assignOptString_body k v st : frame (eq v) st (assignOptString_body k v st).1.
Proof.
  unfold assignOptString_body.
  destruct (Lookup st (contextKey k)) as [f|]; [|apply frame_refl].
  destruct (negb (Changed f)); [apply frame_refl|].
  destruct (GetString st (contextKey k)); [apply frame_refl|apply frame_fieldSetAddr].
Qed.

(** ** Loops over a map *)

Section Loop.

Variable body : string -> Loc -> State -> State * Result.

Hypothesis body_frame : forall k v st, frame (eq v) st (body k v st).1.

Lemma frame_forRange (m : list (string * Loc)) :
  forall st, frame (fun l => l ∈ m.*2) st (forRange body m st).1.
Proof.
  induction m as [|[k v] m IH]; intros st; simpl.
  - apply frame_refl.
  - pose proof (body_frame k v st) as Hb.
    destruct (body k v st) as [st1 r] eqn:Hbody; simpl in Hb.
    assert (frame (fun l => l ∈ v :: m.*2) st st1) as Hb'.
    { eapply frame_weaken; [|exact Hb]. intros l <-. by left. }
    destruct r; simpl; try exact Hb'.
    eapply frame_weaken; [|exact (frame_trans _ _ _ _ _ Hb (IH st1))].
    intros l [<-|Hl]; [by left|by right].
Qed.

Variable decide : gmap string Flag -> string -> Action.
Variable good : gmap string Flag -> string -> Prop.

Hypothesis body_decide :
  forall k v st, good (flags st) k -> body k v st = perform v (decide (flags st) k) st.

(** A loop none of whose entries stops it ends with [ROk]; every field
    holds what the action of its entry put there, and the variables
    allocated for different fields are different. *)
Lemma forRange_effects (m : list (string * Loc)) :
  forall st,
    NoDup m.*2 ->
    (forall k v, (k, v) ∈ m ->
       good (flags st) k /\ forall r, decide (flags st) k <> Stop r) ->
    exists st',
      forRange body m st = (st', ROk)
      /\ frame (fun l => l ∈ m.*2) st st'
      /\ (forall k v, (k, v) ∈ m -> effect v (decide (flags st) k) st st')
      /\ (forall k1 v1 c1 a1 k2 v2 c2 a2,
            (k1, v1) ∈ m -> (k2, v2) ∈ m -> v1 <> v2 ->
            decide (flags st) k1 = PutAddr c1 ->
            decide (flags st) k2 = PutAddr c2 ->
            obj st' !! v1 = Some (GPtr (Some a1)) ->
            obj st' !! v2 = Some (GPtr (Some a2)) ->
            a1 <> a2).
Proof.
  induction m as [|[k v] m IH]; intros st Hnd Hall.
  - exists st. split; [done|]. split; [apply frame_refl|].
    split; intros; exfalso; eapply not_elem_of_nil; eauto.
  - simpl in Hnd. apply NoDup_cons in Hnd as [Hv Hnd].
    destruct (Hall k v) as [Hgood Hns]; [by left|].
    pose proof (frame_forRange ((k, v) :: m) st) as Hfr.
    simpl in *. rewrite (body_decide k v st Hgood) in *.
    destruct (perform v (decide (flags st) k) st) as [st1 r] eqn:Hp.
    assert (r = ROk) as ->.
    { destruct (decide (flags st) k) eqn:Hd; simpl in Hp; congruence. }
    pose proof (frame_perform v (decide (flags st) k) st) as Hf1.
    rewrite Hp in Hf1; simpl in Hf1.
    destruct (IH st1) as (st' & Hrun & Hf2 & Heff & Hinj); [done| |].
    { intros k' v' Hin. rewrite (frame_flags _ _ _ Hf1). apply (Hall k' v'). by right. }
    rewrite (frame_flags _ _ _ Hf1) in Heff, Hinj.
    rewrite Hrun in Hfr; simpl in Hfr.
    assert (length (heap st) <= length (heap st1)) as Hlen.
    { apply prefix_length, Hf1. }
    assert (forall k' v' c', (k', v') ∈ m ->
              decide (flags st) k' = PutAddr c' ->
              forall a', obj st' !! v' = Some (GPtr (Some a')) ->
              length (heap st1) <= a') as Hlate.
    { intros k' v' c' Hin Hd a' Ho. specialize (Heff k' v' Hin).
      rewrite Hd in Heff. destruct Heff as (a & Ha & Hle & _).
      rewrite Ho in Ha. by simplify_eq. }
    assert (forall c, decide (flags st) k = PutAddr c ->
              obj st' !! v = Some (GPtr (Some (length (heap st))))
              /\ length (heap st1) = S (length (heap st))
              /\ heap st' !! length (heap st) = Some c) as Hhead.
    { intros c Hd. rewrite Hd in Hp. simpl in Hp. inversion Hp; subst st1; clear Hp.
      split; [|split].
      - rewrite (frame_obj _ _ _ Hf2) by done. simpl. by rewrite lookup_insert_eq.
      - simpl. rewrite length_app. simpl. lia.
      - eapply prefix_lookup_Some; [|apply Hf2]. simpl.
        by rewrite lookup_app_r, Nat.sub_diag. }
    exists st'. split; [done|]. split; [done|]. split.
    + intros k' v' Hin. apply elem_of_cons in Hin as [Heq|Hin].
      * injection Heq as -> ->.
        destruct (decide (flags st) k) eqn:Hd; simpl; try done.
        -- simpl in Hp. inversion Hp; subst st1.
           by rewrite (frame_obj _ _ _ Hf2).
        -- simpl in Hp. inversion Hp; subst st1.
           rewrite (frame_obj _ _ _ Hf2) by done. simpl. by rewrite lookup_insert_eq.
        -- destruct (Hhead c eq_refl) as (Ho & _ & Hh). eauto.
      * specialize (Heff k' v' Hin).
        assert (v' <> v) as Hne.
        { intros ->. apply Hv. apply list_elem_of_fmap. by exists (k', v). }
        destruct (decide (flags st) k') eqn:Hd; simpl in *; try done.
        -- rewrite Heff. apply (frame_obj _ _ _ Hf1). congruence.
        -- destruct Heff as (a & Ha & Hle & Hh). exists a. split; [done|]. split; [lia|done].
    + intros k1 v1 c1 a1 k2 v2 c2 a2 Hin1 Hin2 Hne Hd1 Hd2 Ho1 Ho2.
      apply elem_of_cons in Hin1 as [Heq1|Hin1];
        apply elem_of_cons in Hin2 as [Heq2|Hin2].
      * congruence.
      * injection Heq1 as -> ->.
        destruct (Hhead c1 Hd1) as (Ho & Hl & _).
        pose proof (Hlate k2 v2 c2 Hin2 Hd2 a2 Ho2). rewrite Ho1 in Ho.
        injection Ho as ->. lia.
      * injection Heq2 as -> ->.
        destruct (Hhead c2 Hd2) as (Ho & Hl & _).
        pose proof (Hlate k1 v1 c1 Hin1 Hd1 a1 Ho1). rewrite Ho2 in Ho.
        injection Ho as ->. lia.
      * exact (Hinj k1 v1 c1 a1 k2 v2 c2 a2 Hin1 Hin2 Hne Hd1 Hd2 Ho1 Ho2).
Qed.

End Loop.

(** ** Sequences: [assignSlices] and [assignArrays] *)

Lemma frame_assignSlices_body k v st : frame (eq v) st (assignSlices_body k v st).1.
Proof. rewrite assignSlices_body_decide. apply frame_perform. Qed.

Lemma frame_assignArrays_body k v st : frame (eq v) st (assignArrays_body k v st).1.
Proof. rewrite assignArrays_body_decide. apply frame_perform. Qed.

Lemma frame_assignMaps_body k v st : frame (eq v) st (assignMaps_body k v st).1.
Proof. rewrite assignMaps_body_decide. apply frame_perform. Qed.

Lemma sequence_action_not_Stop f s r : sequence_action f s <> Stop r.
Proof.
  unfold sequence_action.
  destruct (Changed f && (len s =? 0)%nat); [done|]. by destruct s.
Qed.

Lemma sequence_action_written v f s st st' :
  effect v (sequence_action f s) st st' -> sequence_written st st' v f s.
Proof.
  unfold sequence_action, sequence_written. intros He.
  split; [|split; [|split]].
  - intros Hc Hl. rewrite Hc in He. apply Nat.eqb_eq in Hl. by rewrite Hl in He.
  - intros Hc l -> Hne. rewrite Hc in He. simpl in He.
    destruct l; [done|]. exact He.
  - intros Hc l ->. rewrite Hc in He. exact He.
  - intros Hc ->. rewrite Hc in He. exact He.
Qed.

Lemma assignSlices_written (m : list (string * Loc)) (st : State) :
  NoDup m.*2 ->
  (forall k v, (k, v) ∈ m ->
     exists f s, flags st !! contextKey k = Some f /\ Value f = Own (VStringSlice s)) ->
  exists st', assignSlices m st = (st', ROk)
    /\ forall k v f s, (k, v) ∈ m ->
         flags st !! contextKey k = Some f -> Value f = Own (VStringSlice s) ->
         sequence_written st st' v f s.
Proof.
  intros Hnd Hreg.
  destruct (forRange_effects assignSlices_body frame_assignSlices_body
              decide_slices always
              (fun k v st _ => assignSlices_body_decide k v st) m st Hnd)
    as (st' & Hrun & _ & Heff & _).
  { intros k v Hin. split; [done|]. intros r.
    destruct (Hreg k v Hin) as (f & s & Hf & Hv).
    unfold decide_slices. rewrite Hf, Hv. apply sequence_action_not_Stop. }
  exists st'. split; [exact Hrun|].
  intros k v f s Hin Hf Hv. specialize (Heff k v Hin).
  unfold decide_slices in Heff. rewrite Hf, Hv in Heff.
  by apply sequence_action_written.
Qed.

Lemma assignArrays_written (m : list (string * Loc)) (st : State) :
  NoDup m.*2 ->
  (forall k v, (k, v) ∈ m ->
     exists f s, flags st !! contextKey k = Some f /\ Value f = Own (VStringArray s)) ->
  exists st', assignArrays m st = (st', ROk)
    /\ forall k v f s, (k, v) ∈ m ->
         flags st !! contextKey k = Some f -> Value f = Own (VStringArray s) ->
         sequence_written st st' v f s.
Proof.
  intros Hnd Hreg.
  destruct (forRange_effects assignArrays_body frame_assignArrays_body
              decide_arrays always
              (fun k v st _ => assignArrays_body_decide k v st) m st Hnd)
    as (st' & Hrun & _ & Heff & _).
  { intros k v Hin. split; [done|]. intros r.
    destruct (Hreg k v Hin) as (f & s & Hf & Hv).
    unfold decide_arrays. rewrite Hf, Hv. apply sequence_action_not_Stop. }
  exists st'. split; [exact Hrun|].
  intros k v f s Hin Hf Hv. specialize (Heff k v Hin).
  unfold decide_arrays in Heff. rewrite Hf, Hv in Heff.
  by apply sequence_action_written.
Qed.




Example tags_array_empty_run :
  assignArrays (map_to_list (arrays (New_command PerIteration Listing (a_state ∅))))
    tags_array_empty
  = (fieldSet [0%nat] (GSlice (Some [""])) tags_array_empty, ROk).
Proof. vm_compute. reflexivity. Qed.

(** ** Optionals: [assignOptInt], [assignOptBool] and [assignOptString] *)

Section Optionals.

Variable body : string -> Loc -> State -> State * Result.
Variable cell : FlagVal -> option Cell.
Variable want : string.

Hypothesis body_frame : forall k v st, frame (eq v) st (body k v st).1.
Hypothesis body_decide :
  forall k v st, owned (flags st) k ->
    body k v st = perform v (decide_opt cell want (flags st) k) st.

Lemma optionals_written (m : list (string * Loc)) (st : State) :
  NoDup m.*2 ->
  (forall k v, (k, v) ∈ m ->
     exists f x c, flags st !! contextKey k = Some f /\ Value f = Own x /\ cell x = Some c) ->
  exists st', forRange body m st = (st', ROk)
    /\ (forall k v f x c, (k, v) ∈ m ->
          flags st !! contextKey k = Some f -> Value f = Own x -> cell x = Some c ->
          optional_written st st' v f c)
    /\ distinct_variables m st st'.
Proof.
  intros Hnd Hreg.
  destruct (forRange_effects body body_frame (decide_opt cell want) owned
              body_decide m st Hnd) as (st' & Hrun & _ & Heff & Hinj).
  { intros k v Hin. destruct (Hreg k v Hin) as (f & x & c & Hf & Hv & Hc). split.
    - intros f' l. rewrite Hf. intros [= <-]. by rewrite Hv.
    - intros r. unfold decide_opt. rewrite Hf.
      destruct (negb (Changed f)); [done|]. by rewrite Hv, Hc. }
  exists st'. split; [exact Hrun|]. split.
  - intros k v f x c Hin Hf Hv Hc. specialize (Heff k v Hin).
    unfold decide_opt in Heff. rewrite Hf, Hv, Hc in Heff.
    split; intros Hch; rewrite Hch in Heff; exact Heff.
  - intros k1 v1 f1 a1 k2 v2 f2 a2 Hin1 Hin2 Hne Hf1 Hc1 Hf2 Hc2 Ho1 Ho2.
    destruct (Hreg k1 v1 Hin1) as (f1' & x1 & c1 & Hf1' & Hv1 & Hx1).
    destruct (Hreg k2 v2 Hin2) as (f2' & x2 & c2 & Hf2' & Hv2 & Hx2).
    rewrite Hf1 in Hf1'. injection Hf1' as <-.
    rewrite Hf2 in Hf2'. injection Hf2' as <-.
    apply (Hinj k1 v1 c1 a1 k2 v2 c2 a2 Hin1 Hin2 Hne); try done.
    + unfold decide_opt. by rewrite Hf1, Hc1, Hv1, Hx1.
    + unfold decide_opt. by rewrite Hf2, Hc2, Hv2, Hx2.
Qed.

End Optionals.



Example optionals_run :
  let st' := (assignOptString [("tag", [2%nat])]
                (assignOptInt [("level", [1%nat])] optionals_before).1).1 in
  obj st' !! [1%nat] = Some (GPtr (Some 0%nat))
  /\ heap st' = [CInt 3]
  /\ obj st' !! [2%nat] = Some (GPtr None).
Proof. vm_compute. repeat split; reflexivity. Qed.

(** ** Mappings: [assignMaps] *)

Lemma cut_no_byte (s : string) (sep : ascii) :
  has_byte sep s = false -> cut s sep = None.
Proof.
  induction s as [|c s IH]; simpl; [done|].
  intros H. apply orb_false_iff in H as [Hc Hs].
  rewrite Hc. by rewrite (IH Hs).
Qed.

Lemma cut_first (key val : string) (sep : ascii) :
  has_byte sep key = false ->
  cut (key ++ String sep val)%string sep = Some (key, val).
Proof.
  induction key as [|c key IH]; simpl.
  - intros _. by rewrite Ascii.eqb_refl.
  - intros H. apply orb_false_iff in H as [Hc Hs].
    rewrite Hc. by rewrite (IH Hs).
Qed.

Lemma putPart_bare (values : gmap string string) (bare : string) :
  has_byte "=" bare = false -> putPart values bare = <[bare := ""]> values.
Proof.
  intros H. unfold putPart, SplitN2. by rewrite (cut_no_byte _ _ H).
Qed.

Lemma putPart_pair (values : gmap string string) (key val : string) :
  has_byte "=" key = false ->
  putPart values (key ++ String "=" val)%string = <[key := val]> values.
Proof.
  intros H. unfold putPart, SplitN2. by rewrite (cut_first _ _ _ H).
Qed.

Lemma parseParts_snoc (parts : list string) (part : string) :
  parseParts (parts ++ [part]) = putPart (parseParts parts) part.
Proof. unfold parseParts. by rewrite fold_left_app. Qed.

Lemma assignMaps_written (m : list (string * Loc)) (st : State) :
  NoDup m.*2 ->
  (forall k v, (k, v) ∈ m ->
     exists f ps, flags st !! contextKey k = Some f
       /\ Value f = Own (VStringSlice (Some ps))) ->
  exists st', assignMaps m st = (st', ROk)
    /\ forall k v f ps, (k, v) ∈ m ->
         flags st !! contextKey k = Some f ->
         Value f = Own (VStringSlice (Some ps)) ->
         obj st' !! v = Some (GMap (Some (parseParts ps))).
Proof.
  intros Hnd Hreg.
  destruct (forRange_effects assignMaps_body frame_assignMaps_body
              decide_maps always
              (fun k v st _ => assignMaps_body_decide k v st) m st Hnd)
    as (st' & Hrun & _ & Heff & _).
  { intros k v Hin. split; [done|]. intros r.
    destruct (Hreg k v Hin) as (f & ps & Hf & Hv).
    unfold decide_maps. by rewrite Hf, Hv. }
  exists st'. split; [exact Hrun|].
  intros k v f ps Hin Hf Hv. specialize (Heff k v Hin).
  unfold decide_maps in Heff. by rewrite Hf, Hv in Heff.
Qed.



Example labels_given_run :
  obj (assignMaps [("labels", [0%nat])] labels_given).1 !! [0%nat]
  = Some (GMap (Some {[ "a" := "1"; "b" := "" ]})).
Proof. vm_compute. reflexivity. Qed.

(** ** Naming *)

Lemma Split_no_byte (s : string) (sep : ascii) :
  has_byte sep s = false -> Split s sep = [s].
Proof.
  induction s as [|c s IH]; simpl; [done|].
  intros H. apply orb_false_iff in H as [Hc Hs].
  rewrite Hc. by rewrite (IH Hs).
Qed.

Lemma Split_first (a b : string) (sep : ascii) :
  has_byte sep a = false ->
  Split (a ++ String sep b)%string sep = a :: Split b sep.
Proof.
  induction a as [|c a IH]; simpl.
  - intros _. by rewrite Ascii.eqb_refl.
  - intros H. apply orb_false_iff in H as [Hc Hs].
    rewrite Hc. by rewrite (IH Hs).
Qed.

Lemma lower_byte_idemp (c : ascii) : lower_byte (lower_byte c) = lower_byte c.
Proof. destruct c as [[] [] [] [] [] [] [] []]; vm_compute; reflexivity. Qed.

Lemma ToLower_idemp (s : string) : ToLower (ToLower s) = ToLower s.
Proof.
  induction s as [|c s IH]; simpl; [done|].
  by rewrite lower_byte_idemp, IH.
Qed.

(** A name of one segment: the kebab-case form in lower case, and no
    alias. *)
Lemma name_one_segment (a : string) :
  has_byte "_" a = false ->
  name a "" "" = (ToLower (caseRegexp_ReplaceAllString a), "").
Proof.
  intros Ha. unfold name. simpl bool_decide.
  rewrite (Split_no_byte _ _ Ha). simpl. by rewrite ToLower_idemp.
Qed.

(** A name of two segments [a_b]: the flag is named after [b] and the
    alias is [a]. *)
Lemma name_two_segments (a b : string) :
  has_byte "_" a = false -> has_byte "_" b = false ->
  name (a ++ String "_" b)%string "" ""
  = (ToLower (caseRegexp_ReplaceAllString b), ToLower a).
Proof.
  intros Ha Hb. unfold name. simpl bool_decide.
  rewrite (Split_first _ _ _ Ha), (Split_no_byte _ _ Hb). simpl.
  by rewrite ToLower_idemp.
Qed.

(** C5, as amended.  For the declared name [Tag_Name] without
    overrides the resolver returns the flag name [name] and the alias
    [tag]; the flag name [tag-name] with an empty alias is what the
    declared name [TagName] resolves to. *)
Theorem name_Tag_Name :
  name "Tag_Name" "" "" = ("name", "tag")
  /\ name "TagName" "" "" = ("tag-name", "").
Proof. split; reflexivity. Qed.

(** C5 as stated fails: the result for [Tag_Name] is not the flag name
    [tag-name] with an empty alias. *)
Lemma Tag_Name_is_not_kebab :
  name "Tag_Name" "" "" <> ("tag-name", "").
Proof. vm_compute. discriminate. Qed.

Example contextKey_last : contextKey "a,b" = "b" /\ contextKey "tags" = "tags".
Proof. split; reflexivity. Qed.

Example Atoi_examples :
  Atoi "-42" = Some (-42)%Z /\ Atoi "+7" = Some 7%Z /\ Atoi "4x" = None
  /\ Atoi "" = None /\ Atoi "-" = None
  /\ Atoi "9223372036854775807" = Some 9223372036854775807%Z
  /\ Atoi "9223372036854775808" = None.
Proof. repeat split; reflexivity. Qed.

(** ** The fields of a record *)

Lemma fields_struct (n : string) (fs : list StructField) (base : Loc) :
  fields (TStruct n fs) base = concat (imap (fields_at base) fs).
Proof.
  simpl.
  match goal with
  | |- ?F fs 0%nat = _ =>
      assert (forall fs i, F fs i
                = concat (imap (fun j => fields_at base (i + j)) fs)) as Hloop
  end.
  { clear fs. induction fs as [|f fs IH]; intros i; [done|].
    rewrite imap_cons. simpl concat. rewrite IH.
    f_equal.
    - rewrite Nat.add_0_r. unfold fields_at. by destruct f.
    - f_equal. apply imap_ext. intros j x _. simpl. f_equal. lia. }
  apply Hloop.
Qed.

Lemma exported_first_byte (f : StructField) :
  exported f = true <->
  exists c rest, Name f = String c rest
    /\ is_lower c = false /\ (byte_of c < 128)%nat.
Proof.
  unfold exported. destruct (Name f) as [|c rest].
  - split; [done|]. by intros (c & rest & H & _).
  - rewrite bool_decide_eq_true. unfold ToUpper1, upper_byte. split.
    + intros H. exists c, rest. split; [done|].
      destruct (byte_of c <? 128)%nat eqn:Hlt; [|discriminate].
      apply Nat.ltb_lt in Hlt. split; [|done].
      destruct (is_lower c) eqn:Hl; [|done].
      injection H as H. exfalso.
      assert (byte_of (ascii_of_nat (byte_of c - 32)) = byte_of c) as Hb by (by rewrite H).
      unfold byte_of in *. rewrite nat_ascii_embedding in Hb by lia.
      unfold is_lower in Hl. apply andb_true_iff in Hl as [Hl _].
      apply Nat.leb_le in Hl. unfold byte_of in Hl. lia.
    + intros (c' & rest' & [= <- <-] & Hl & Hlt).
      apply Nat.ltb_lt in Hlt. by rewrite Hlt, Hl.
Qed.



Example fields_Build :
  map (fun info => (Name (FieldType info), FieldValue info)) (fields Build [])
  = [("Verbose", [0%nat; 0%nat]); ("Target", [1%nat]); ("jobs", [2%nat])]
  /\ map (fun info => Name (FieldType info)) (bindable Build [])
     = ["Verbose"; "Target"].
Proof. split; reflexivity. Qed.


(** ** Registration: [New] *)

Lemma with_envs_maps cbs c :
  arrays (with_envs cbs c) = arrays c /\ slices (with_envs cbs c) = slices c
  /\ maps (with_envs cbs c) = maps c /\ optString (with_envs cbs c) = optString c
  /\ optBool (with_envs cbs c) = optBool c /\ optInt (with_envs cbs c) = optInt c.
Proof. done. Qed.

Lemma registered_P (d : FlagVal) loc nm alias usage st :
  registered (P d loc nm alias usage st) nm d.
Proof.
  unfold registered, P. simpl. eexists. rewrite lookup_insert_eq. done.
Qed.




(** The loop of [New] passes over the fields that are not bindable. *)
Lemma New_loop_bindable (lv : LoopVar) (infos : list fieldInfo) (b : Command * State) :
  New_loop lv infos b
  = New_loop lv (filter (fun info => exported (FieldType info) = true) infos) b.
Proof.
  revert b. induction infos as [|info infos IH]; intros b; [done|].
  destruct (exported (FieldType info)) eqn:Hexp.
  - rewrite filter_cons_True by done. simpl.
    destruct (New_field lv info b); [apply IH|done].
  - rewrite filter_cons_False by (by rewrite Hexp). simpl.
    unfold New_field at 1. rewrite Hexp. simpl. apply IH.
Qed.

Lemma New_bindable (lv : LoopVar) (t : GoType) (st : State) :
  New lv t st = New_loop lv (bindable t []) (Command_empty, st).
Proof. apply New_loop_bindable. Qed.

(** An exported field of a kind without a branch, other than a
    pointer: [New] panics. *)
Lemma New_field_panics (lv : LoopVar) (info : fieldInfo) (b : Command * State) :
  exported (FieldType info) = true ->
  supported (Type_ (FieldType info)) = false ->
  TypeKind (Type_ (FieldType info)) <> reflect.Pointer ->
  New_field lv info b = None.
Proof.
  intros Hexp Hsup Hptr. unfold New_field. rewrite Hexp. simpl negb. cbv iota.
  destruct (name _ _ _) as [nm alias]. destruct b as [c st].
  unfold register. unfold supported in Hsup.
  destruct (TypeKind (Type_ (FieldType info))); try done.
Qed.

(** An exported pointer field whose element kind has no branch:
    [New] goes on, without a flag for the field. *)
Lemma New_field_pointer_unsupported (lv : LoopVar) (info : fieldInfo)
    (c : Command) (st : State) :
  exported (FieldType info) = true ->
  TypeKind (Type_ (FieldType info)) = reflect.Pointer ->
  supported (Type_ (FieldType info)) = false ->
  exists cbs, New_field lv info (c, st) = Some (with_envs cbs c, st).
Proof.
  intros Hexp Hptr Hsup. unfold New_field. rewrite Hexp. simpl negb. cbv iota.
  destruct (name _ _ _) as [nm alias].
  unfold register. unfold supported in Hsup. rewrite Hptr in *.
  destruct (ElemKind (Type_ (FieldType info))); try done; by eexists.
Qed.

(** C8 at the failing input.  [Ratio *float64] has a kind outside the
    supported set, and [New] returns a command: no flag, no map entry,
    no panic.  For [Ratio float64] it panics. *)
Theorem New_Scale_accepted :
  supported (TPtr (TKind reflect.Float64)) = false
  /\ New PerLoop Scale (a_state ∅) = Some (Command_empty, a_state ∅)
  /\ New PerIteration Scale (a_state ∅) = Some (Command_empty, a_state ∅)
  /\ New PerIteration Plot (a_state ∅) = None.
Proof. repeat split; vm_compute; reflexivity. Qed.

(** ** The environment overlay *)

Lemma FlagSet_Set_string (st : State) (nm fv v : string) :
  GetString st nm = inr fv ->
  GetString (FlagSet_Set st nm v) nm = inr v
  /\ Changed <$> flags (FlagSet_Set st nm v) !! nm = Some true
  /\ (forall f l, flags st !! nm = Some f -> Value f = Bound l ->
        obj (FlagSet_Set st nm v) !! l = Some (GString v))
  /\ (forall nm', nm' <> nm ->
        flags (FlagSet_Set st nm v) !! nm' = flags st !! nm').
Proof.
  unfold GetString, FlagSet_Set, Lookup, current.
  destruct (flags st !! nm) as [f|] eqn:Hf; [|done].
  destruct (Value f) as [x|l] eqn:Hv.
  - destruct x; try done. intros _. simpl.
    rewrite lookup_insert_eq. simpl.
    split; [done|]. split; [done|]. split.
    + intros f' l' [= <-] Hb. by rewrite Hv in Hb.
    + intros nm' Hne. by rewrite lookup_insert_ne.
  - destruct (obj st !! l) as [[]|] eqn:Ho; try done. intros _. simpl.
    rewrite lookup_insert_eq. simpl. rewrite Hv, lookup_insert_eq.
    split; [done|]. split; [done|]. split.
    + intros f' l' [= <-] Hb. rewrite Hv in Hb. injection Hb as <-.
      by rewrite lookup_insert_eq.
    + intros nm' Hne. by rewrite lookup_insert_ne.
Qed.

Lemma FlagSet_Set_trace st nm v : trace (FlagSet_Set st nm v) = trace st.
Proof.
  unfold FlagSet_Set. destruct (Lookup st nm) as [f|]; [|done].
  destruct (Value f) as [[]|l]; try done.
  by destruct (obj st !! l) as [[]|].
Qed.

Lemma envCallback_trace cb st : trace (envCallback cb st) = trace st.
Proof.
  unfold envCallback. case_bool_decide; [|done].
  destruct (GetString st (cb_name cb)); [done|].
  destruct (_ || _); [apply FlagSet_Set_trace|done].
Qed.

Lemma runEnvs_trace cbs st : trace (runEnvs cbs st) = trace st.
Proof.
  revert st. induction cbs as [|cb cbs IH]; intros st; [done|].
  simpl. unfold runEnvs in IH. by rewrite IH, envCallback_trace.
Qed.

Lemma New_field_envs (lv : LoopVar) (info : fieldInfo) (c c' : Command) (st st' : State) :
  exported (FieldType info) = true ->
  New_field lv info (c, st) = Some (c', st') ->
  envs c' = envs c ++
    map (fun e => mkEnvCallback (captured lv (declared_env (FieldType info)) e)
                    (flag_name (FieldType info))
                    (TagGet (FieldTag (FieldType info)) "default"))
        (declared_env (FieldType info)).
Proof.
  intros Hexp. unfold New_field, flag_name, declared_env. rewrite Hexp. simpl negb. cbv iota.
  destruct (name _ _ _) as [nm alias].
  destruct (register _ _ _ _ _ _ _ _ _) as [[c1 st1]|] eqn:Hreg; [|done].
  intros [= <- <-]. simpl. f_equal.
  unfold register in Hreg.
  repeat match type of Hreg with
         | context [match ?x with _ => _ end] => destruct x
         end; by simplify_eq.
Qed.




Example environment_precedence :
  obj (runEnvs (New_envs PerIteration Tagged (a_state ∅)) tagged_env) !! [0%nat]
  = Some (GString "v2")
  /\ obj (runEnvs (New_envs PerIteration Tagged (a_state ∅)) tagged_env_flag) !! [0%nat]
     = Some (GString "v3").
Proof. split; vm_compute; reflexivity. Qed.

(** Two names in one [env] tag.  With [A=d], the default, and [B=x]
    the flag ends as [x] whichever variable the closures have
    captured; with [A=v] alone the result depends on it. *)
Example fallback_two_names (lv : LoopVar) :
  length (New_envs lv Fallback (a_state ∅)) = 2%nat
  /\ GetString (runEnvs (New_envs lv Fallback (a_state ∅)) (fallback_env lv)) "tag"
     = inr "x".
Proof. destruct lv; split; vm_compute; reflexivity. Qed.

Example fallback_first_name :
  GetString (runEnvs (New_envs PerIteration Fallback (a_state ∅))
               (setenv "A" "v" (New_state PerIteration Fallback (a_state ∅)))) "tag"
  = inr "v"
  /\ GetString (runEnvs (New_envs PerLoop Fallback (a_state ∅))
                  (setenv "A" "v" (New_state PerLoop Fallback (a_state ∅)))) "tag"
     = inr "d".
Proof. split; vm_compute; reflexivity. Qed.

(** ** The hook: [bind] *)

Lemma writeback_framed oa osl om oi ob os : framed (writeback oa osl om oi ob os).
Proof.
  intros s m f Hin st. unfold writeback in Hin.
  repeat (apply elem_of_cons in Hin as [[= -> -> ->]|Hin]).
  - apply frame_forRange, frame_assignArrays_body.
  - apply frame_forRange, frame_assignSlices_body.
  - apply frame_forRange, frame_assignMaps_body.
  - apply frame_forRange, frame_assignOptInt_body.
  - apply frame_forRange, frame_assignOptBool_body.
  - apply frame_forRange, frame_assignOptString_body.
  - by apply not_elem_of_nil in Hin.
Qed.

Lemma framed_cons x steps : framed (x :: steps) -> framed steps.
Proof. intros H s m f Hin st. apply (H s m f). by right. Qed.

Lemma bind_hook (next : Hook) oa osl om oi ob os envs :
  exists hook, bind (Some next) oa osl om oi ob os envs = Some hook
    /\ forall args st,
         hook args st
         = match run (writeback oa osl om oi ob os) (runEnvs envs (enter SEnv st)) with
           | (st', ROk) => next args (enter SNext st')
           | r => r
           end.
Proof.
  eexists. split; [reflexivity|]. intros args st. simpl.
  repeat match goal with
         | |- context [step ?s ?f ?x] =>
             destruct (step s f x) as [? []]; try reflexivity
         end.
Qed.

Lemma run_app steps1 steps2 st :
  run (steps1 ++ steps2) st
  = match run steps1 st with
    | (st1, ROk) => run steps2 st1
    | r => r
    end.
Proof.
  revert st. induction steps1 as [|[[s m] f] steps1 IH]; intros st; [done|].
  simpl. destruct (step s f st) as [st1 []]; [apply IH|done|done].
Qed.

(** A run of steps either enters all of them in order, or ends in the
    first step whose result is not [ROk], with the result and the
    state of that step. *)
Lemma run_trace steps :
  framed steps ->
  forall st,
    (exists st', run steps st = (st', ROk) /\ trace st' = trace st ++ steps.*1.*1)
    \/ (exists pre s m f post st0 st' r,
          steps = pre ++ (s, m, f) :: post
          /\ trace st0 = trace st ++ pre.*1.*1 ++ [s]
          /\ f st0 = (st', r) /\ r <> ROk
          /\ run steps st = (st', r)
          /\ trace st' = trace st0).
Proof.
  induction steps as [|[[s m] f] steps IH]; intros Hfr st.
  - left. exists st. split; [done|]. by rewrite app_nil_r.
  - simpl. unfold step.
    pose proof (Hfr s m f ltac:(by left) (enter s st)) as Hf.
    destruct (f (enter s st)) as [st1 r] eqn:Hrun. simpl in Hf.
    assert (trace st1 = trace st ++ [s]) as Ht1 by (by rewrite (frame_trace _ _ _ Hf)).
    assert (r = ROk \/ r <> ROk) as [-> | Hr] by (destruct r; auto).
    + destruct (IH (framed_cons _ _ Hfr) st1)
        as [(st' & Hok & Ht)|(pre & s' & m' & f' & post & st0 & st' & r & -> & Ht0 & Hf' & Hr & Hrun' & Ht')].
      * left. exists st'. split; [done|]. rewrite Ht, Ht1. by rewrite <- app_assoc.
      * right. exists ((s, m, f) :: pre), s', m', f', post, st0, st', r.
        split; [done|]. split; [|done].
        rewrite Ht0, Ht1. simpl. by rewrite <- app_assoc.
    + right. exists [], s, m, f, steps, (enter s st), st1, r.
      split; [done|]. split; [done|]. split; [done|]. split; [done|].
      split; [by destruct r|]. by rewrite (frame_trace _ _ _ Hf).
Qed.


Example bind_nil oa osl om oi ob os envs : bind None oa osl om oi ob os envs = None.
Proof. reflexivity. Qed.

Example Mixed_maps :
  let c := New_command PerIteration Mixed (a_state ∅) in
  map_to_list (arrays c) = [] /\ map_to_list (slices c) = [("tags", [0%nat])]
  /\ map_to_list (maps c) = [] /\ map_to_list (optInt c) = []
  /\ map_to_list (optBool c) = [] /\ map_to_list (optString c) = [("x,tag", [1%nat])].
Proof. repeat split; vm_compute; reflexivity. Qed.

Example mismatch_run :
  exists hook,
    bind (Some body_ok) [] [("tags", [0%nat])] [] [] [] [("x,tag", [1%nat])] [] = Some hook
    /\ (hook [] mismatch).2 = RErr (ErrType "string" "tag")
    /\ trace (hook [] mismatch).1
       = [SEnv; SArrays; SSlices; SMaps; SOptInt; SOptBool; SOptString].
Proof. eexists. split; [reflexivity|]. split; vm_compute; reflexivity. Qed.

Lemma targets_app steps1 steps2 :
  targets (steps1 ++ steps2) = targets steps1 ++ targets steps2.
Proof. unfold targets. by rewrite map_app, concat_app. Qed.

(** C10.  When the steps [pre] of a hook have ended without an error
    and the next step returns an error, the hook returns that error
    with the state the failing step ends in, and every field that the
    steps [pre] write holds in that state what it held when they had
    ended: nothing is put back. *)
Theorem bind_no_rollback (next : Hook) (oa osl om oi ob os : list (string * Loc))
    (envs : list EnvCallback) (args : list string) (st : State)
    (pre post : list (Step * list (string * Loc) * (State -> State * Result)))
    (s : Step) (m : list (string * Loc)) (f : State -> State * Result)
    (st1 st' : State) (e : Error) :
  NoDup (targets (writeback oa osl om oi ob os)) ->
  writeback oa osl om oi ob os = pre ++ (s, m, f) :: post ->
  run pre (runEnvs envs (enter SEnv st)) = (st1, ROk) ->
  step s f st1 = (st', RErr e) ->
  exists hook, bind (Some next) oa osl om oi ob os envs = Some hook
    /\ hook args st = (st', RErr e)
    /\ forall v, v ∈ targets pre -> obj st' !! v = obj st1 !! v.
Proof.
  intros Hnd Hw Hpre Hstep.
  destruct (bind_hook next oa osl om oi ob os envs) as (hook & Hbind & Hhook).
  exists hook. split; [exact Hbind|]. split.
  - rewrite Hhook, Hw, run_app, Hpre. simpl. by rewrite Hstep.
  - intros v Hv.
    pose proof (writeback_framed oa osl om oi ob os s m f) as Hfr.
    rewrite Hw in Hfr. specialize (Hfr ltac:(apply elem_of_app; right; by left) (enter s st1)).
    unfold step in Hstep. rewrite Hstep in Hfr. simpl in Hfr.
    rewrite (frame_obj _ _ _ Hfr); [done|].
    rewrite Hw, targets_app in Hnd. apply NoDup_app in Hnd as (_ & Hdis & _).
    intros Hm. apply (Hdis v Hv). unfold targets. simpl.
    apply elem_of_app. by left.
Qed.

(** The theorem at the record [mismatch]: the step for optional strings
    fails on the flag [tag], and the field [Tags], which was nil before
    the hook, keeps the sequence the step for split sequences gave
    it. *)
Lemma bind_no_rollback_witness :
  exists hook st',
    bind (Some body_ok) [] [("tags", [0%nat])] [] [] [] [("x,tag", [1%nat])] [] = Some hook
    /\ hook [] mismatch = (st', RErr (ErrType "string" "tag"))
    /\ obj st' !! [0%nat] = Some (GSlice (Some [""]))
    /\ obj mismatch !! [0%nat] = Some (GSlice None).
Proof.
  pose (pre := [ (SArrays, [], assignArrays []);
                 (SSlices, [("tags", [0%nat])], assignSlices [("tags", [0%nat])]);
                 (SMaps, [], assignMaps []);
                 (SOptInt, [], assignOptInt []);
                 (SOptBool, [], assignOptBool []) ]
               : list (Step * list (string * Loc) * (State -> State * Result))).
  pose (st1 := (run pre (runEnvs [] (enter SEnv mismatch))).1).
  pose (st' := (step SOptString (assignOptString [("x,tag", [1%nat])]) st1).1).
  destruct (bind_no_rollback body_ok [] [("tags", [0%nat])] [] [] [] [("x,tag", [1%nat])]
              [] [] mismatch pre [] SOptString [("x,tag", [1%nat])]
              (assignOptString [("x,tag", [1%nat])]) st1 st' (ErrType "string" "tag"))
    as (hook & Hbind & Hrun & Hkept).
  - refine (bool_decide_unpack _ _); vm_compute; exact I.
  - reflexivity.
  - vm_compute. reflexivity.
  - vm_compute. reflexivity.
  - exists hook, st'. split; [exact Hbind|]. split; [exact Hrun|]. split.
    + rewrite (Hkept [0%nat]).
      * vm_compute. reflexivity.
      * refine (bool_decide_unpack _ _); vm_compute; exact I.
    + vm_compute. reflexivity.
Defined.

(** ** A command from [New] to its hook *)

Example Run_tag_default :
  let c := New_command PerIteration Run Run_zero in
  range_of (optString c) [("tag", [2%nat])]
  /\ exists hook,
       RunE c body_ok (map_to_list (arrays c)) (map_to_list (slices c))
            (map_to_list (maps c)) (map_to_list (optInt c))
            (map_to_list (optBool c)) (map_to_list (optString c)) = Some hook
       /\ (hook [] run_tag_default).2 = ROk
       /\ obj (hook [] run_tag_default).1 !! [2%nat] = Some (GPtr (Some 0%nat))
       /\ heap (hook [] run_tag_default).1 = [CString "v1"]
       /\ obj (hook [] run_tag_default).1 !! [0%nat] = Some (GPtr None)
       /\ trace (hook [] run_tag_default).1 = hook_order.
Proof.
  split; [vm_compute; reflexivity|].
  eexists. split; [reflexivity|]. repeat split; vm_compute; reflexivity.
Qed.

(** * Further properties of the binder *)

(** ** [strings.Split] *)

Lemma Split_nonempty (s : string) (sep : ascii) : Split s sep <> [].
Proof.
  destruct s as [|c s]; simpl; [done|].
  destruct (Ascii.eqb c sep); [done|]. by destruct (Split s sep).
Qed.

Lemma Split_cons_other (c : ascii) (s : string) (sep : ascii) :
  Ascii.eqb c sep = false ->
  exists p ps, Split s sep = p :: ps /\ Split (String c s) sep = String c p :: ps.
Proof.
  intros Hc. simpl. rewrite Hc.
  destruct (Split s sep) as [|p ps] eqn:Hs; [by destruct (Split_nonempty s sep)|].
  by exists p, ps.
Qed.

Lemma Split_no_sep (s : string) (sep : ascii) :
  Forall (fun p => has_byte sep p = false) (Split s sep).
Proof.
  induction s as [|c s IH]; simpl.
  - by constructor.
  - destruct (Ascii.eqb c sep) eqn:Hc.
    + by constructor.
    + destruct (Split s sep) as [|p ps]; [by repeat constructor; simpl; rewrite Hc|].
      inversion IH; subst. constructor; [|done]. simpl. by rewrite Hc.
Qed.

Lemma Join_cons (p : string) (l : list string) (sep : ascii) :
  l <> [] -> Join (p :: l) sep = (p ++ String sep (Join l sep))%string.
Proof. by destruct l. Qed.

(** Joining the parts with the separator gives the string back. *)
Lemma Join_Split (s : string) (sep : ascii) : Join (Split s sep) sep = s.
Proof.
  induction s as [|c s IH]; [done|].
  simpl Split. destruct (Ascii.eqb c sep) eqn:Hc.
  - apply Ascii.eqb_eq in Hc as ->.
    rewrite Join_cons by apply Split_nonempty. simpl. by rewrite IH.
  - destruct (Split s sep) as [|p ps] eqn:Hs; [by destruct (Split_nonempty s sep)|].
    destruct ps as [|q ps]; simpl in *; by rewrite <- IH.
Qed.

Lemma last_segment_sep (s : string) (sep : ascii) :
  last_segment (String sep s) sep = last_segment s sep.
Proof.
  unfold last_segment. simpl. rewrite Ascii.eqb_refl.
  destruct (Split s sep) as [|p ps] eqn:Hs; [by destruct (Split_nonempty s sep)|].
  simpl. by rewrite !Nat.sub_0_r.
Qed.

Lemma last_segment_other (c : ascii) (s : string) (sep : ascii) :
  Ascii.eqb c sep = false ->
  last_segment (String c s) sep
  = if has_byte sep s then last_segment s sep else String c s.
Proof.
  intros Hc. unfold last_segment.
  destruct (Split_cons_other c s sep Hc) as (p & ps & Hs & ->).
  rewrite Hs. destruct (has_byte sep s) eqn:Hb.
  - destruct ps as [|q ps]; [|done].
    pose proof (Join_Split s sep) as HJ. rewrite Hs in HJ. simpl in HJ. subst p.
    pose proof (Split_no_sep s sep) as HF. rewrite Hs in HF.
    inversion HF; congruence.
  - rewrite (Split_no_byte _ _ Hb) in Hs. injection Hs as <- <-. done.
Qed.

Lemma last_segment_no_sep (s : string) (sep : ascii) :
  has_byte sep (last_segment s sep) = false.
Proof.
  induction s as [|c s IH]; [done|].
  destruct (Ascii.eqb c sep) eqn:Hc.
  - apply Ascii.eqb_eq in Hc as ->. by rewrite last_segment_sep.
  - rewrite (last_segment_other _ _ _ Hc).
    destruct (has_byte sep s) eqn:Hb; [done|]. simpl. by rewrite Hc, Hb.
Qed.

Lemma last_segment_app (a b : string) (sep : ascii) :
  last_segment (a ++ String sep b)%string sep = last_segment b sep.
Proof.
  induction a as [|c a IH].
  - apply last_segment_sep.
  - change (String c a ++ String sep b)%string with (String c (a ++ String sep b)%string).
    destruct (Ascii.eqb c sep) eqn:Hc.
    + apply Ascii.eqb_eq in Hc as ->. by rewrite last_segment_sep.
    + rewrite (last_segment_other _ _ _ Hc).
      assert (has_byte sep (a ++ String sep b)%string = true) as ->; [|done].
      clear. induction a as [|c a IH]; simpl.
      * by rewrite Ascii.eqb_refl.
      * by rewrite IH, orb_true_r.
Qed.

Lemma last_segment_suffix (s : string) (sep : ascii) :
  exists pre, s = (pre ++ last_segment s sep)%string
    /\ (pre = "" \/ exists p, pre = (p ++ String sep "")%string).
Proof.
  induction s as [|c s (pre & Hs & Hpre)].
  - exists "". by split; [|left].
  - destruct (Ascii.eqb c sep) eqn:Hc.
    + apply Ascii.eqb_eq in Hc as ->. rewrite last_segment_sep.
      exists (String sep pre).
      split; [change (String sep s = String sep (pre ++ last_segment s sep)%string);
              by f_equal|]. right.
      destruct Hpre as [->|(p & ->)]; [by exists ""|by exists (String sep p)].
    + rewrite (last_segment_other _ _ _ Hc).
      destruct (has_byte sep s) eqn:Hb.
      * exists (String c pre).
        split; [change (String c s = String c (pre ++ last_segment s sep)%string);
                by f_equal|]. right.
        destruct Hpre as [->|(p & ->)]; [|by exists (String c p)].
        assert (s = last_segment s sep) as Heq by exact Hs.
        pose proof (last_segment_no_sep s sep) as Hn. rewrite <- Heq in Hn. congruence.
      * exists "". by split; [|left].
Qed.

(** ** [contextKey] *)

(** X1.  [contextKey] returns what follows the last comma of a name: the
    result has no comma, the name ends with it, what precedes it is
    empty or ends with a comma, and text put before a comma in front
    of a name does not change the result. *)
Theorem contextKey_last_comma (n : string) :
  has_byte "," (contextKey n) = false
  /\ (exists pre, n = (pre ++ contextKey n)%string
        /\ (pre = "" \/ exists p, pre = (p ++ ",")%string))
  /\ (forall a, contextKey (a ++ String "," n)%string = contextKey n)
  /\ (contextKey n = n <-> has_byte "," n = false).
Proof.
  change (contextKey n) with (last_segment n ",").
  split; [apply last_segment_no_sep|].
  split; [apply last_segment_suffix|].
  split; [intros a; apply (last_segment_app a n ",")|].
  split.
  - intros <-. apply last_segment_no_sep.
  - intros Hb. unfold last_segment. by rewrite (Split_no_byte _ _ Hb).
Qed.

(** ** [name]: the derived flag name and alias *)

Lemma string_ind2 (P : string -> Prop) :
  P "" ->
  (forall a, P (String a "")) ->
  (forall a b rest, P rest -> P (String b rest) -> P (String a (String b rest))) ->
  forall s, P s.
Proof.
  intros H0 H1 H2 s.
  assert (P s /\ forall a, P (String a s)) as [H _]; [|exact H].
  induction s as [|b s [IHs IHb]]; [by split|].
  split; [apply IHb|]. intros a. apply H2; [exact IHs|apply IHb].
Qed.

Lemma upper_not_lower (c : ascii) : is_upper c = true -> is_lower c = false.
Proof. destruct c as [[] [] [] [] [] [] [] []]; vm_compute; congruence. Qed.

Lemma is_upper_lower_byte (c : ascii) : is_upper (lower_byte c) = false.
Proof. destruct c as [[] [] [] [] [] [] [] []]; vm_compute; reflexivity. Qed.

Lemma lower_byte_eqb (c d : ascii) :
  is_upper d = false -> is_lower d = false ->
  Ascii.eqb (lower_byte c) d = Ascii.eqb c d.
Proof.
  intros Hu Hl. unfold lower_byte. destruct (is_upper c) eqn:Hc; [|done].
  transitivity false.
  - apply Ascii.eqb_neq. intros <-.
    revert Hl. clear -Hc.
    destruct c as [[] [] [] [] [] [] [] []]; vm_compute in *; congruence.
  - symmetry. apply Ascii.eqb_neq. intros <-. congruence.
Qed.

Lemma has_upper_ToLower (s : string) : has_upper (ToLower s) = false.
Proof.
  induction s as [|c s IH]; [done|]. simpl. by rewrite is_upper_lower_byte, IH.
Qed.

Lemma has_byte_ToLower (d : ascii) (s : string) :
  is_upper d = false -> is_lower d = false ->
  has_byte d (ToLower s) = has_byte d s.
Proof.
  intros Hu Hl. induction s as [|c s IH]; [done|].
  simpl. by rewrite lower_byte_eqb, IH.
Qed.

Lemma kebab_head (b : ascii) (rest : string) :
  exists t, caseRegexp_ReplaceAllString (String b rest) = String b t.
Proof.
  destruct rest as [|c rest]; [by eexists|].
  simpl. destruct (is_lower b && is_upper c); by eexists.
Qed.

Lemma has_byte_cons (d c : ascii) (s : string) :
  has_byte d (String c s) = Ascii.eqb c d || has_byte d s.
Proof. reflexivity. Qed.

Lemma has_byte_kebab (d : ascii) (s : string) :
  Ascii.eqb "-" d = false ->
  has_byte d (caseRegexp_ReplaceAllString s) = has_byte d s.
Proof.
  intros Hd. induction s as [|a|a b rest IH1 IH2] using string_ind2; [done|done|].
  change (caseRegexp_ReplaceAllString (String a (String b rest)))
    with (if is_lower a && is_upper b
          then String a (String "-" (String b (caseRegexp_ReplaceAllString rest)))
          else String a (caseRegexp_ReplaceAllString (String b rest))).
  destruct (is_lower a && is_upper b).
  - rewrite !has_byte_cons. by rewrite Hd, IH1.
  - rewrite !(has_byte_cons d a). by rewrite IH2.
Qed.

Lemma has_camel_cons (a : ascii) (t : string) :
  is_lower a = false -> has_camel (String a t) = has_camel t.
Proof. intros Ha. destruct t as [|b t]; [done|]. simpl. by rewrite Ha. Qed.

Lemma has_camel_cons2 (a b : ascii) (t : string) :
  has_camel (String a (String b t)) = (is_lower a && is_upper b) || has_camel (String b t).
Proof. reflexivity. Qed.

(** After the replacement no lower-case letter is followed at once by
    an upper-case letter. *)
Lemma has_camel_kebab (s : string) :
  has_camel (caseRegexp_ReplaceAllString s) = false.
Proof.
  induction s as [|a|a b rest IH1 IH2] using string_ind2; [done|done|].
  change (caseRegexp_ReplaceAllString (String a (String b rest)))
    with (if is_lower a && is_upper b
          then String a (String "-" (String b (caseRegexp_ReplaceAllString rest)))
          else String a (caseRegexp_ReplaceAllString (String b rest))).
  destruct (is_lower a && is_upper b) eqn:Hab.
  - apply andb_true_iff in Hab as [Ha Hb].
    rewrite has_camel_cons2.
    replace (is_upper "-") with false by reflexivity.
    rewrite andb_false_r, orb_false_l.
    rewrite (has_camel_cons "-") by reflexivity.
    rewrite (has_camel_cons b) by (by apply upper_not_lower). exact IH1.
  - destruct (kebab_head b rest) as (t & Ht). rewrite Ht in *.
    rewrite has_camel_cons2. by rewrite Hab, IH2.
Qed.

Lemma kebab_no_camel (s : string) :
  has_camel s = false -> caseRegexp_ReplaceAllString s = s.
Proof.
  induction s as [|a|a b rest IH1 IH2] using string_ind2; [done|done|].
  rewrite has_camel_cons2. intros H. apply orb_false_iff in H as [Hab Hc].
  change (caseRegexp_ReplaceAllString (String a (String b rest)))
    with (if is_lower a && is_upper b
          then String a (String "-" (String b (caseRegexp_ReplaceAllString rest)))
          else String a (caseRegexp_ReplaceAllString (String b rest))).
  by rewrite Hab, (IH2 Hc).
Qed.

(** The flag name of a field without a [name] tag. *)
Lemma name_derived_flag (n short : string) :
  (name n "" short).1 = ToLower (caseRegexp_ReplaceAllString (last_segment n "_")).
Proof.
  unfold name, last_segment. simpl bool_decide. cbv iota. simpl.
  by rewrite ToLower_idemp.
Qed.




(** With a [name] tag the tag and the [short] tag are returned as they
    are; the declared name plays no part. *)
Example name_explicit (n setName short : string) :
  setName <> "" -> name n setName short = (setName, short).
Proof. intros H. unfold name. by rewrite bool_decide_eq_true_2. Qed.

(** ** [fields]: the places of the fields *)

Lemma GoType_ind_fields (P : GoType -> Prop) :
  (forall k, P (TKind k)) ->
  (forall e, P e -> P (TPtr e)) ->
  (forall n fs, Forall (fun f => P (Type_ f)) fs -> P (TStruct n fs)) ->
  forall t, P t.
Proof.
  intros Hk Hp Hs. fix IH 1. intros [k|e|n fs].
  - apply Hk.
  - apply Hp, IH.
  - apply Hs. induction fs as [|[nm an tg ty] fs IHfs]; constructor.
    + apply IH.
    + exact IHfs.
Qed.

Lemma fields_at_chunk (base : Loc) (k : nat) (f : StructField) :
  (forall base', Forall (fun info => Anonymous (FieldType info) = false
                   /\ exists suf, suf <> [] /\ FieldValue info = base' ++ suf)
                  (fields (Type_ f) base')
                 /\ NoDup (map FieldValue (fields (Type_ f) base'))) ->
  Forall (fun info => Anonymous (FieldType info) = false
            /\ exists suf, FieldValue info = base ++ k :: suf)
         (fields_at base k f)
  /\ NoDup (map FieldValue (fields_at base k f)).
Proof.
  intros IH. unfold fields_at.
  destruct (Anonymous f && bool_decide (TypeKind (Type_ f) = reflect.Struct)).
  - destruct (IH (base ++ [k])) as [HF HN]. split; [|exact HN].
    eapply Forall_impl; [exact HF|].
    intros info (Ha & suf & _ & ->). split; [done|].
    exists suf. by rewrite <- app_assoc.
  - destruct (Anonymous f) eqn:Ha; simpl.
    + split; constructor.
    + split; [|apply NoDup_singleton].
      constructor; [|constructor]. split; [done|]. by exists [].
Qed.

Lemma fields_chunks (base : Loc) (fs : list StructField) :
  Forall (fun f => forall base',
            Forall (fun info => Anonymous (FieldType info) = false
                      /\ exists suf, suf <> [] /\ FieldValue info = base' ++ suf)
                   (fields (Type_ f) base')
            /\ NoDup (map FieldValue (fields (Type_ f) base'))) fs ->
  forall i,
    Forall (fun info => Anonymous (FieldType info) = false
              /\ exists k suf, i <= k /\ FieldValue info = base ++ k :: suf)
           (concat (imap (fun j => fields_at base (i + j)) fs))
    /\ NoDup (map FieldValue (concat (imap (fun j => fields_at base (i + j)) fs))).
Proof.
  induction 1 as [|f fs Hf Hfs IH]; intros i.
  - split; constructor.
  - rewrite imap_cons. simpl concat. rewrite Nat.add_0_r.
    destruct (fields_at_chunk base i f Hf) as [HF1 HN1].
    assert (imap ((fun j => fields_at base (i + j)) ∘ S) fs
            = imap (fun j => fields_at base (S i + j)) fs) as ->.
    { apply imap_ext. intros j x _. simpl. f_equal. lia. }
    destruct (IH (S i)) as [HF2 HN2]. split.
    + apply Forall_app. split.
      * eapply Forall_impl; [exact HF1|]. intros info (Ha & suf & ->).
        split; [done|]. by exists i, suf.
      * eapply Forall_impl; [exact HF2|]. intros info (Ha & k & suf & Hk & ->).
        split; [done|]. exists k, suf. split; [lia|done].
    + rewrite map_app. apply NoDup_app. split; [exact HN1|]. split; [|exact HN2].
      intros l Hl1 Hl2.
      apply list_elem_of_fmap in Hl1 as (i1 & -> & Hi1).
      apply list_elem_of_fmap in Hl2 as (i2 & Heq & Hi2).
      rewrite Forall_forall in HF1, HF2.
      destruct (HF1 i1 Hi1) as (_ & suf1 & H1).
      destruct (HF2 i2 Hi2) as (_ & k & suf2 & Hk & H2).
      rewrite H1, H2 in Heq. apply app_inv_head in Heq. injection Heq as -> _. lia.
Qed.


(** ** [New]: when it panics *)

Lemma New_field_not_panics (lv : LoopVar) (info : fieldInfo) (b : Command * State) :
  panics (FieldType info) = false -> exists b', New_field lv info b = Some b'.
Proof.
  unfold panics, New_field, supported. destruct (exported (FieldType info)); [|by eexists].
  simpl. destruct (name _ _ _) as [nm alias]. destruct b as [c st]. unfold register.
  intros Hp.
  destruct (TypeKind (Type_ (FieldType info))) eqn:Hk; try (by vm_compute in Hp).
  all: first
    [ by eexists
    | destruct (ElemKind (Type_ (FieldType info))); by eexists
    | destruct (bool_decide (TagGet (FieldTag (FieldType info)) "split" = "false"));
      by eexists ].
Qed.

Lemma New_field_panics_iff (lv : LoopVar) (info : fieldInfo) (b : Command * State) :
  New_field lv info b = None <-> panics (FieldType info) = true.
Proof.
  split.
  - intros Hn. destruct (panics (FieldType info)) eqn:Hp; [done|].
    destruct (New_field_not_panics lv info b Hp) as (b' & Hb). congruence.
  - unfold panics. intros H. apply andb_true_iff in H as [H Hptr].
    apply andb_true_iff in H as [Hexp Hsup].
    apply New_field_panics; [done|by apply negb_true_iff|].
    apply negb_true_iff in Hptr. by apply bool_decide_eq_false in Hptr.
Qed.

Lemma New_loop_panics_iff (lv : LoopVar) (infos : list fieldInfo) :
  forall b, New_loop lv infos b = None
            <-> exists info, info ∈ infos /\ panics (FieldType info) = true.
Proof.
  induction infos as [|info infos IH]; intros b; simpl.
  - split; [done|]. intros (info & Hin & _). by apply not_elem_of_nil in Hin.
  - destruct (New_field lv info b) as [b'|] eqn:Hf.
    + rewrite IH. split.
      * intros (i & Hin & Hp). exists i. split; [by right|done].
      * intros (i & Hin & Hp). apply elem_of_cons in Hin as [->|Hin]; [|by exists i].
        apply (New_field_panics_iff lv info b) in Hp. congruence.
    + split; [|done]. intros _. exists info. split; [by left|].
      by apply (New_field_panics_iff lv info b).
Qed.


(** ** [New]: flags bound to a field *)

Lemma bound_to_VarP v x d loc nm alias usage st :
  bound_to (VarP v x d loc nm alias usage st) nm v
  /\ obj (VarP v x d loc nm alias usage st) !! v = Some x.
Proof.
  unfold bound_to, VarP. simpl. split.
  - eexists. by rewrite lookup_insert_eq.
  - by rewrite lookup_insert_eq.
Qed.



(** ** The overlay: what it leaves alone *)

Lemma same_kind_refl x : same_kind x x = true.
Proof. by destruct x. Qed.

Lemma same_kind_trans x y z :
  same_kind x y = true -> same_kind y z = true -> same_kind x z = true.
Proof. by destruct x, y, z. Qed.

Lemma same_store_refl a : same_store a a = true.
Proof. destruct a; simpl; [apply same_kind_refl|by apply bool_decide_eq_true_2]. Qed.

Lemma same_store_trans a b c :
  same_store a b = true -> same_store b c = true -> same_store a c = true.
Proof.
  destruct a, b, c; simpl; try done.
  - apply same_kind_trans.
  - rewrite !bool_decide_eq_true. congruence.
Qed.

Lemma flag_kept_refl f : flag_kept f f.
Proof. unfold flag_kept. by rewrite same_store_refl. Qed.

Lemma flag_kept_trans f g h : flag_kept f g -> flag_kept g h -> flag_kept f h.
Proof.
  intros (S1 & D1 & H1 & U1 & L1 & C1) (S2 & D2 & H2 & U2 & L2 & C2).
  split; [by eapply same_store_trans|]. repeat split; try congruence. auto.
Qed.

Lemma flags_kept_refl (fs : gmap string Flag) nm :
  option_Forall2 flag_kept (fs !! nm) (fs !! nm).
Proof. destruct (fs !! nm); constructor. apply flag_kept_refl. Qed.

Lemma overlaid_refl names st : overlaid names st st.
Proof. constructor; try done. intros nm. apply flags_kept_refl. Qed.

Lemma overlaid_trans n1 n2 st st1 st2 :
  overlaid n1 st st1 -> overlaid n2 st1 st2 -> overlaid (n1 ++ n2) st st2.
Proof.
  intros [E1 H1 T1 F1 O1 B1] [E2 H2 T2 F2 O2 B2].
  constructor; try congruence.
  - intros nm. specialize (F1 nm). specialize (F2 nm).
    destruct F1 as [f g Hfg|]; inversion F2; subst; constructor.
    by eapply flag_kept_trans.
  - intros nm Hnm. rewrite O2, O1; [done| |]; intros Hin; apply Hnm, elem_of_app; auto.
  - intros l Hl. rewrite B2, B1; [done| |].
    + intros nm f Hin. apply Hl, elem_of_app. by left.
    + intros nm g Hin Hg Hb. specialize (F1 nm). rewrite Hg in F1.
      inversion F1 as [f g' (Hs & _) Hf Hg'|]; subst.
      rewrite Hb in Hs. destruct (Value f) as [|l'] eqn:Hv; [done|].
      simpl in Hs. apply bool_decide_eq_true in Hs as ->.
      eapply (Hl nm f); [apply elem_of_app; by right|done|done].
Qed.

Lemma overlaid_FlagSet_Set st nm v : overlaid [nm] st (FlagSet_Set st nm v).
Proof.
  unfold FlagSet_Set, Lookup.
  destruct (flags st !! nm) as [f|] eqn:Hf; [|apply overlaid_refl].
  destruct (Value f) as [x|l] eqn:Hv.
  - destruct x; try apply overlaid_refl.
    constructor; simpl; try done.
    + intros nm'. destruct (decide (nm' = nm)) as [->|Hne].
      * rewrite lookup_insert_eq, Hf. constructor.
        unfold flag_kept. simpl. by rewrite Hv.
      * rewrite lookup_insert_ne by done. apply flags_kept_refl.
    + intros nm' Hnm. rewrite lookup_insert_ne; [done|].
      intros <-. apply Hnm. by left.
  - destruct (obj st !! l) as [[]|] eqn:Ho; try apply overlaid_refl.
    constructor; simpl; try done.
    + intros nm'. destruct (decide (nm' = nm)) as [->|Hne].
      * rewrite lookup_insert_eq, Hf. constructor.
        unfold flag_kept. simpl. by rewrite same_store_refl.
      * rewrite lookup_insert_ne by done. apply flags_kept_refl.
    + intros nm' Hnm. rewrite lookup_insert_ne; [done|].
      intros <-. apply Hnm. by left.
    + intros l' Hl'. rewrite lookup_insert_ne; [done|].
      intros <-. by apply (Hl' nm f ltac:(by left) Hf).
Qed.

Lemma overlaid_envCallback cb st : overlaid [cb_name cb] st (envCallback cb st).
Proof.
  unfold envCallback. case_bool_decide; [|apply overlaid_refl].
  destruct (GetString st (cb_name cb)); [apply overlaid_refl|].
  destruct (_ || _); [apply overlaid_FlagSet_Set|apply overlaid_refl].
Qed.

Lemma overlaid_runEnvs (cbs : list EnvCallback) (st : State) :
  overlaid (map cb_name cbs) st (runEnvs cbs st).
Proof.
  revert st. induction cbs as [|cb cbs IH]; intros st.
  - apply overlaid_refl.
  - change (runEnvs (cb :: cbs) st) with (runEnvs cbs (envCallback cb st)).
    change (map cb_name (cb :: cbs)) with ([cb_name cb] ++ map cb_name cbs).
    eapply overlaid_trans; [apply overlaid_envCallback|apply IH].
Qed.

(** X7.  The overlay changes nothing but the value and the changed mark of
    the flags its callbacks name, and the fields these flags are bound
    to: the environment, the allocated variables, the other flags and
    the other fields stay as they are; no flag is removed, changes the
    type or place of its value, or loses its changed mark. *)
Theorem runEnvs_overlaid (cbs : list EnvCallback) (st : State) :
  overlaid (map cb_name cbs) st (runEnvs cbs st).
Proof. apply overlaid_runEnvs. Qed.

(** ** The overlay: running it again *)

Lemma FlagSet_Set_twice st nm v :
  FlagSet_Set (FlagSet_Set st nm v) nm v = FlagSet_Set st nm v.
Proof.
  destruct (flags st !! nm) as [f|] eqn:Hf.
  2: { assert (FlagSet_Set st nm v = st) as Hid
         by (unfold FlagSet_Set, Lookup; by rewrite Hf).
       by rewrite !Hid. }
  destruct (Value f) as [x|l] eqn:Hv.
  - assert (forall s, x = VString s ->
              FlagSet_Set st nm v
              = set_flags (fun fs => <[nm := changed (holding (VString v) f)]> fs) st)
      as Hstr.
    { intros s ->. unfold FlagSet_Set, Lookup. by rewrite Hf, Hv. }
    destruct x as [n|s|b|s|s];
      try (assert (FlagSet_Set st nm v = st) as Hid
             by (unfold FlagSet_Set, Lookup; by rewrite Hf, Hv);
           by rewrite !Hid).
    rewrite (Hstr s eq_refl).
    unfold FlagSet_Set, Lookup, set_flags. simpl. rewrite lookup_insert_eq. simpl.
    by rewrite insert_insert_eq.
  - destruct (obj st !! l) as [x|] eqn:Ho.
    2: { assert (FlagSet_Set st nm v = st) as Hid
           by (unfold FlagSet_Set, Lookup; by rewrite Hf, Hv, Ho).
         by rewrite !Hid. }
    destruct x as [n|s|b|s|m|p];
      try (assert (FlagSet_Set st nm v = st) as Hid
             by (unfold FlagSet_Set, Lookup; by rewrite Hf, Hv, Ho);
           by rewrite !Hid).
    assert (FlagSet_Set st nm v
            = set_flags (fun fs => <[nm := changed f]> fs)
                (set_obj (fun o => <[l := GString v]> o) st)) as ->.
    { unfold FlagSet_Set, Lookup. by rewrite Hf, Hv, Ho. }
    unfold FlagSet_Set, Lookup, set_flags, set_obj. simpl.
    rewrite lookup_insert_eq. simpl. rewrite Hv, lookup_insert_eq.
    by rewrite !insert_insert_eq.
Qed.

Lemma Getenv_FlagSet_Set st nm v key :
  Getenv (FlagSet_Set st nm v) key = Getenv st key.
Proof.
  unfold Getenv. by rewrite (overlaid_environ _ _ _ (overlaid_FlagSet_Set st nm v)).
Qed.

(** What a callback does, by cases. *)
Lemma envCallback_cases cb st :
  envCallback cb st = st
  \/ (exists fv, Getenv st (cb_env cb) <> ""
        /\ GetString st (cb_name cb) = inr fv
        /\ (fv = "" \/ fv = cb_defValue cb)
        /\ envCallback cb st = FlagSet_Set st (cb_name cb) (Getenv st (cb_env cb))).
Proof.
  unfold envCallback. case_bool_decide as Hv; [|by left].
  destruct (GetString st (cb_name cb)) as [e|fv] eqn:Hg; [by left|].
  destruct (bool_decide (fv = "") || bool_decide (fv = cb_defValue cb)) eqn:Hc; [|by left].
  right. exists fv. split; [done|]. split; [done|]. split; [|done].
  apply orb_true_iff in Hc as [Hc|Hc]; apply bool_decide_eq_true in Hc; auto.
Qed.

Lemma envCallback_forced cb st fv :
  Getenv st (cb_env cb) <> "" ->
  GetString st (cb_name cb) = inr fv ->
  envCallback cb st
  = if bool_decide (fv = "") || bool_decide (fv = cb_defValue cb)
    then FlagSet_Set st (cb_name cb) (Getenv st (cb_env cb)) else st.
Proof.
  intros Hv Hg. unfold envCallback. by rewrite bool_decide_eq_true_2, Hg.
Qed.

Lemma envCallback_after (cb c : EnvCallback) (st : State) :
  cb_name cb = cb_name c -> cb_defValue cb = cb_defValue c ->
  envCallback cb st = st ->
  envCallback cb (envCallback c st) = envCallback c st.
Proof.
  intros Hn Hd Hfix.
  destruct (envCallback_cases c st) as [->|(fv & Hv & Hg & Hfv & Hc)]; [done|].
  rewrite Hc.
  destruct (FlagSet_Set_string st (cb_name c) fv (Getenv st (cb_env c)) Hg) as (Hg2 & _).
  destruct (decide (Getenv st (cb_env cb) = "")) as [He|He].
  { unfold envCallback at 1. rewrite Getenv_FlagSet_Set.
    by rewrite bool_decide_eq_false_2 by tauto. }
  rewrite (envCallback_forced cb _ (Getenv st (cb_env c)));
    [|by rewrite Getenv_FlagSet_Set|by rewrite Hn].
  rewrite (bool_decide_eq_false_2 (Getenv st (cb_env c) = "")) by done. simpl.
  case_bool_decide as Hdef; [|done].
  rewrite Getenv_FlagSet_Set, Hn.
  (* the callback [cb] left [st] alone although its variable is set *)
  rewrite (envCallback_forced cb st fv He) in Hfix by (by rewrite Hn).
  assert (bool_decide (fv = "") || bool_decide (fv = cb_defValue cb) = true) as Hcond.
  { destruct Hfv as [->| ->]; [done|]. rewrite Hd.
    rewrite (bool_decide_eq_true_2 (cb_defValue c = cb_defValue c)) by done.
    apply orb_true_r. }
  rewrite Hcond, Hn in Hfix.
  destruct (FlagSet_Set_string st (cb_name c) fv (Getenv st (cb_env cb)) Hg) as (Hg3 & _).
  rewrite Hfix, Hg in Hg3. injection Hg3 as Hfv'.
  assert (Getenv st (cb_env cb) = Getenv st (cb_env c)) as ->.
  { destruct Hfv as [Hf0|Hf0]; [exfalso; apply He|]; congruence. }
  apply FlagSet_Set_twice.
Qed.

Lemma envCallback_twice (c : EnvCallback) (st : State) :
  envCallback c (envCallback c st) = envCallback c st.
Proof.
  destruct (envCallback_cases c st) as [Hfix|(fv & Hv & Hg & Hfv & Hc)].
  - by rewrite !Hfix.
  - rewrite Hc.
    destruct (FlagSet_Set_string st (cb_name c) fv (Getenv st (cb_env c)) Hg) as (Hg2 & _).
    rewrite (envCallback_forced c _ (Getenv st (cb_env c)));
      [|by rewrite Getenv_FlagSet_Set|done].
    rewrite (bool_decide_eq_false_2 (Getenv st (cb_env c) = "")) by done. simpl.
    case_bool_decide; [|done].
    rewrite Getenv_FlagSet_Set. apply FlagSet_Set_twice.
Qed.

Lemma runEnvs_fixed (cbs : list EnvCallback) (st : State) :
  (forall cb, cb ∈ cbs -> envCallback cb st = st) -> runEnvs cbs st = st.
Proof.
  induction cbs as [|cb cbs IH]; intros H; [done|].
  change (runEnvs (cb :: cbs) st) with (runEnvs cbs (envCallback cb st)).
  rewrite (H cb) by (by left). apply IH. intros cb' Hin. apply H. by right.
Qed.

(** X8.  The callbacks of one field, which share the name of the flag and
    the default, reach a state that running them again does not
    change: the overlay of the pre-run hook and the overlay of the run
    hook of one invocation leave the flag with the same value. *)
Theorem runEnvs_idempotent (cbs : list EnvCallback) (nm d : string) (st : State) :
  (forall cb, cb ∈ cbs -> cb_name cb = nm /\ cb_defValue cb = d) ->
  runEnvs cbs (runEnvs cbs st) = runEnvs cbs st.
Proof.
  intros Hsame. apply runEnvs_fixed.
  revert Hsame. induction cbs as [|c cbs IH] using rev_ind; intros Hsame cb Hin.
  - by apply not_elem_of_nil in Hin.
  - unfold runEnvs. rewrite fold_left_app. simpl.
    fold (runEnvs cbs st).
    destruct (Hsame c) as [Hcn Hcd]; [apply elem_of_app; right; by left|].
    apply elem_of_app in Hin as [Hin|Hin].
    + destruct (Hsame cb) as [Hn Hd]; [apply elem_of_app; by left|].
      apply envCallback_after; [congruence|congruence|].
      apply IH; [|done]. intros cb' Hin'. apply Hsame, elem_of_app. by left.
    + apply list_elem_of_singleton in Hin as ->. apply envCallback_twice.
Qed.

Lemma runEnvs_idempotent_witness :
  runEnvs (New_envs PerIteration Fallback (a_state ∅))
    (runEnvs (New_envs PerIteration Fallback (a_state ∅)) (fallback_env PerIteration))
  = runEnvs (New_envs PerIteration Fallback (a_state ∅)) (fallback_env PerIteration).
Proof.
  apply (runEnvs_idempotent _ "tag" "d").
  intros cb Hin. vm_compute in Hin.
  apply elem_of_cons in Hin as [->|Hin]; [done|].
  apply elem_of_cons in Hin as [->|Hin]; [done|].
  by apply not_elem_of_nil in Hin.
Defined.

(** ** The write-back steps: what they leave alone *)

Lemma written_refl W st : written W st st.
Proof. by constructor. Qed.

Lemma written_frame W st st' : frame W st st' -> written W st st'.
Proof. intros [? ? ? ? ?]. by constructor. Qed.

Lemma written_trans (W1 W2 W : Loc -> Prop) st1 st2 st3 :
  (forall l, W1 l -> W l) -> (forall l, W2 l -> W l) ->
  written W1 st1 st2 -> written W2 st2 st3 -> written W st1 st3.
Proof.
  intros H1 H2 [F1 E1 P1 O1] [F2 E2 P2 O2].
  constructor; try congruence.
  - by etrans.
  - intros l Hl. rewrite O2, O1; [done| |]; intros Hw; apply Hl; auto.
Qed.

Lemma written_enter W s st : written W st (enter s st).
Proof. by constructor. Qed.

Lemma run_written steps :
  framed steps ->
  forall st, written (fun l => l ∈ targets steps) st (run steps st).1.
Proof.
  induction steps as [|[[s m] f] steps IH]; intros Hfr st.
  - apply written_refl.
  - simpl. unfold step.
    pose proof (Hfr s m f ltac:(by left) (enter s st)) as Hf.
    apply written_frame in Hf.
    assert (written (fun l => l ∈ targets ((s, m, f) :: steps)) st (f (enter s st)).1) as H1.
    { eapply (written_trans (fun _ => False)); [| |apply (written_enter _ s)|exact Hf].
      - done.
      - intros l Hl. unfold targets. simpl. apply elem_of_app. by left. }
    destruct (f (enter s st)) as [st1 []]; simpl in *; try exact H1.
    eapply written_trans; [| |exact H1|apply (IH (framed_cons _ _ Hfr))].
    + done.
    + intros l Hl. unfold targets. simpl. apply elem_of_app. by right.
Qed.

(** X9.  Whatever its result, the write-back of a hook leaves the flags and
    the environment as they are, keeps every variable allocated
    before, and writes no field of the record outside the six maps it
    was given. *)
Theorem writeback_written (oa osl om oi ob os : list (string * Loc)) (st : State) :
  written (fun l => l ∈ (oa ++ osl ++ om ++ oi ++ ob ++ os).*2)
          st (run (writeback oa osl om oi ob os) st).1.
Proof.
  eapply (written_trans (fun _ => False));
    [| |apply written_refl|apply run_written, writeback_framed].
  - done.
  - intros l. unfold targets, writeback. simpl.
    by rewrite !fmap_app, app_nil_r.
Qed.

(** ** The write-back steps: the first entry that fails *)

Lemma forRange_app body (m1 m2 : list (string * Loc)) (st : State) :
  forRange body (m1 ++ m2) st
  = match forRange body m1 st with
    | (st1, ROk) => forRange body m2 st1
    | r => r
    end.
Proof.
  revert st. induction m1 as [|[k v] m1 IH]; intros st; [done|].
  simpl. destruct (body k v st) as [st1 []]; [apply IH|done|done].
Qed.

Section Stops.

Variable body : string -> Loc -> State -> State * Result.
Variable decide : gmap string Flag -> string -> Action.

Hypothesis body_decide :
  forall k v st, body k v st = perform v (decide (flags st) k) st.

Lemma body_frame_decide k v st : frame (eq v) st (body k v st).1.
Proof. rewrite body_decide. apply frame_perform. Qed.

Lemma forRange_no_stop (m : list (string * Loc)) :
  forall st,
    (forall k v, (k, v) ∈ m -> forall r, decide (flags st) k <> Stop r) ->
    exists st', forRange body m st = (st', ROk).
Proof.
  induction m as [|[k v] m IH]; intros st Hall; [by eexists|].
  simpl. rewrite body_decide.
  pose proof (frame_perform v (decide (flags st) k) st) as Hf.
  destruct (perform v (decide (flags st) k) st) as [st1 r] eqn:Hp. simpl in Hf.
  assert (r = ROk) as ->.
  { pose proof (Hall k v ltac:(by left)) as Hns.
    destruct (decide (flags st) k) eqn:Hd; simpl in Hp; congruence. }
  apply IH. intros k' v' Hin. rewrite (frame_flags _ _ _ Hf). apply (Hall k' v'). by right.
Qed.

Lemma forRange_stops (pre post : list (string * Loc)) (k : string) (v : Loc)
    (st : State) (r : Result) :
  (forall k' v', (k', v') ∈ pre -> forall r', decide (flags st) k' <> Stop r') ->
  decide (flags st) k = Stop r -> r <> ROk ->
  exists st1, forRange body pre st = (st1, ROk)
    /\ forRange body (pre ++ (k, v) :: post) st = (st1, r)
    /\ frame (fun l => l ∈ pre.*2) st st1.
Proof.
  intros Hpre Hk Hr.
  destruct (forRange_no_stop pre st Hpre) as (st1 & Hrun).
  pose proof (frame_forRange body body_frame_decide pre st) as Hf.
  rewrite Hrun in Hf. simpl in Hf.
  exists st1. split; [done|]. split; [|done].
  rewrite forRange_app, Hrun. simpl. rewrite body_decide.
  rewrite (frame_flags _ _ _ Hf), Hk. simpl. by destruct r.
Qed.

Hypothesis decide_Stop_ROk : forall fs k, decide fs k <> Stop ROk.
Hypothesis decide_PutAddr : forall fs k c, decide fs k <> PutAddr c.

(** A loop that only puts values into its fields: after a run that
    ended without an error a second run changes nothing. *)
Lemma forRange_again (m : list (string * Loc)) :
  forall st st',
    NoDup m.*2 ->
    forRange body m st = (st', ROk) ->
    forRange body m st' = (st', ROk).
Proof.
  induction m as [|[k v] m IH]; intros st st' Hnd Hrun.
  - simpl in Hrun. by injection Hrun as ->.
  - simpl in Hnd. apply NoDup_cons in Hnd as [Hv Hnd].
    simpl in Hrun. rewrite body_decide in Hrun.
    pose proof (frame_perform v (decide (flags st) k) st) as Hf1.
    destruct (perform v (decide (flags st) k) st) as [st1 r] eqn:Hp. simpl in Hf1.
    destruct r; try congruence.
    pose proof (frame_forRange body body_frame_decide m st1) as Hf2.
    rewrite Hrun in Hf2. simpl in Hf2.
    simpl. rewrite body_decide.
    rewrite (frame_flags _ _ _ Hf2), (frame_flags _ _ _ Hf1).
    destruct (decide (flags st) k) eqn:Hd; simpl in Hp |- *.
    + by apply (IH st1).
    + injection Hp as <- ->. by destruct (decide_Stop_ROk (flags st) k).
    + injection Hp as <-.
      assert (fieldSet v x st' = st') as ->; [|by apply (IH (fieldSet v x st))].
      unfold fieldSet, set_obj. rewrite insert_id; [by destruct st'|].
      rewrite (frame_obj _ _ _ Hf2) by done. simpl. by rewrite lookup_insert_eq.
    + by destruct (decide_PutAddr (flags st) k c).
Qed.

End Stops.

Lemma decide_slices_getter st k :
  match GetStringSlice st (contextKey k) with
  | inl e => decide_slices (flags st) k = Stop (RErr e)
  | inr _ => forall r, decide_slices (flags st) k <> Stop r
  end.
Proof.
  unfold GetStringSlice, decide_slices, Lookup, current.
  destruct (flags st !! contextKey k) as [f|]; [|done].
  destruct (Value f) as [[]|l]; try done.
  - apply sequence_action_not_Stop.
  - by destruct (obj st !! l) as [[]|].
Qed.

Lemma decide_arrays_getter st k :
  match GetStringArray st (contextKey k) with
  | inl e => decide_arrays (flags st) k = Stop (RErr e)
  | inr _ => forall r, decide_arrays (flags st) k <> Stop r
  end.
Proof.
  unfold GetStringArray, decide_arrays, Lookup, current.
  destruct (flags st !! contextKey k) as [f|]; [|done].
  destruct (Value f) as [[]|l]; try done.
  - apply sequence_action_not_Stop.
  - by destruct (obj st !! l) as [[]|].
Qed.

Lemma decide_maps_getter st k :
  match GetStringSlice st (contextKey k) with
  | inl e => decide_maps (flags st) k = Stop (RErr e)
  | inr _ => forall r, decide_maps (flags st) k <> Stop r
  end.
Proof.
  unfold GetStringSlice, decide_maps, Lookup, current.
  destruct (flags st !! contextKey k) as [f|]; [|done].
  destruct (Value f) as [[]|l]; try done.
  - by destruct s.
  - by destruct (obj st !! l) as [[]|].
Qed.

Section SequenceStep.

Variable body : string -> Loc -> State -> State * Result.
Variable decide : gmap string Flag -> string -> Action.
Variable get : State -> string -> Error + option (list string).

Hypothesis body_decide :
  forall k v st, body k v st = perform v (decide (flags st) k) st.
Hypothesis decide_getter :
  forall st k,
    match get st (contextKey k) with
    | inl e => decide (flags st) k = Stop (RErr e)
    | inr _ => forall r, decide (flags st) k <> Stop r
    end.

Lemma sequence_stops (pre post : list (string * Loc)) (k : string) (v : Loc)
    (st : State) (e : Error) :
  (forall k' v', (k', v') ∈ pre -> exists s, get st (contextKey k') = inr s) ->
  get st (contextKey k) = inl e ->
  exists st1, forRange body pre st = (st1, ROk)
    /\ forRange body (pre ++ (k, v) :: post) st = (st1, RErr e)
    /\ flags st1 = flags st
    /\ forall l, l ∉ pre.*2 -> obj st1 !! l = obj st !! l.
Proof.
  intros Hpre Hk.
  destruct (forRange_stops body decide body_decide pre post k v st (RErr e))
    as (st1 & H1 & H2 & Hf).
  - intros k' v' Hin. destruct (Hpre k' v' Hin) as (s & Hs).
    pose proof (decide_getter st k') as Hd. by rewrite Hs in Hd.
  - pose proof (decide_getter st k) as Hd. by rewrite Hk in Hd.
  - done.
  - exists st1. split; [done|]. split; [done|].
    split; [apply Hf|]. intros l Hl. by apply (frame_obj _ _ _ Hf).
Qed.

End SequenceStep.


Lemma sequence_action_not_PutAddr f s c : sequence_action f s <> PutAddr c.
Proof.
  unfold sequence_action.
  destruct (Changed f && (len s =? 0)%nat); [done|]. by destruct s.
Qed.

(** X11.  A step for sequences or mappings that has ended without an error
    changes nothing when it runs again on the state it has left: the
    hooks of one invocation, which all run the write-back, agree on
    these fields. *)
Theorem sequence_step_again :
  Forall (fun '(step, _) =>
            forall (m : list (string * Loc)) (st st' : State),
              NoDup m.*2 ->
              step m st = (st', ROk) ->
              step m st' = (st', ROk))
         sequence_steps.
Proof.
  repeat constructor; intros m st st'.
  - apply (forRange_again assignArrays_body decide_arrays assignArrays_body_decide).
    + intros fs k. unfold decide_arrays.
      destruct (fs !! contextKey k) as [f|]; [|done].
      destruct (Value f) as [[]|]; try done. apply sequence_action_not_Stop.
    + intros fs k c. unfold decide_arrays.
      destruct (fs !! contextKey k) as [f|]; [|done].
      destruct (Value f) as [[]|]; try done. apply sequence_action_not_PutAddr.
  - apply (forRange_again assignSlices_body decide_slices assignSlices_body_decide).
    + intros fs k. unfold decide_slices.
      destruct (fs !! contextKey k) as [f|]; [|done].
      destruct (Value f) as [[]|]; try done. apply sequence_action_not_Stop.
    + intros fs k c. unfold decide_slices.
      destruct (fs !! contextKey k) as [f|]; [|done].
      destruct (Value f) as [[]|]; try done. apply sequence_action_not_PutAddr.
  - apply (forRange_again assignMaps_body decide_maps assignMaps_body_decide).
    + intros fs k. unfold decide_maps.
      destruct (fs !! contextKey k) as [f|]; [|done].
      destruct (Value f) as [[| | |[]|]|]; done.
    + intros fs k c. unfold decide_maps.
      destruct (fs !! contextKey k) as [f|]; [|done].
      destruct (Value f) as [[| | |[]|]|]; done.
Qed.

(** ** The write-back steps for optionals: edges *)


(** ** The write-back steps for optionals: running them again *)

Section OptionalAgain.

Variable body : string -> Loc -> State -> State * Result.
Variable cell : FlagVal -> option Cell.
Variable want : string.

Hypothesis body_frame : forall k v st, frame (eq v) st (body k v st).1.
Hypothesis body_decide :
  forall k v st, owned (flags st) k ->
    body k v st = perform v (decide_opt cell want (flags st) k) st.

Lemma optionals_again (m : list (string * Loc)) (st : State) :
  NoDup m.*2 ->
  (forall k v, (k, v) ∈ m ->
     exists f x c, flags st !! contextKey k = Some f /\ Value f = Own x /\ cell x = Some c) ->
  exists st' st'',
    forRange body m st = (st', ROk) /\ forRange body m st' = (st'', ROk)
    /\ forall k v f x c, (k, v) ∈ m ->
         flags st !! contextKey k = Some f -> Value f = Own x -> cell x = Some c ->
         Changed f = true ->
         exists a1 a2 : nat,
           obj st' !! v = Some (GPtr (Some a1)) /\ obj st'' !! v = Some (GPtr (Some a2))
           /\ a1 < a2 /\ heap st'' !! a1 = Some c /\ heap st'' !! a2 = Some c.
Proof.
  intros Hnd Hreg.
  destruct (optionals_written body cell want body_frame body_decide m st Hnd Hreg)
    as (st' & Hrun1 & Hw1 & _).
  pose proof (frame_forRange body body_frame m st) as Hf1.
  rewrite Hrun1 in Hf1. simpl in Hf1.
  assert (forall k v, (k, v) ∈ m ->
            exists f x c, flags st' !! contextKey k = Some f /\ Value f = Own x
                          /\ cell x = Some c) as Hreg'.
  { intros k v Hin. rewrite (frame_flags _ _ _ Hf1). by apply (Hreg k v). }
  destruct (optionals_written body cell want body_frame body_decide m st' Hnd Hreg')
    as (st'' & Hrun2 & Hw2 & _).
  pose proof (frame_forRange body body_frame m st') as Hf2.
  rewrite Hrun2 in Hf2. simpl in Hf2.
  exists st', st''. split; [done|]. split; [done|].
  intros k v f x c Hin Hf Hv Hc Hch.
  destruct (Hw1 k v f x c Hin Hf Hv Hc) as [_ H1].
  destruct (H1 Hch) as (a1 & Ho1 & _ & Hh1).
  rewrite <- (frame_flags _ _ _ Hf1) in Hf.
  destruct (Hw2 k v f x c Hin Hf Hv Hc) as [_ H2].
  destruct (H2 Hch) as (a2 & Ho2 & Hle & Hh2).
  exists a1, a2. split; [done|]. split; [done|].
  split; [apply lookup_lt_Some in Hh1; lia|]. split; [|done].
  eapply prefix_lookup_Some; [exact Hh1|apply Hf2].
Qed.

End OptionalAgain.


(** ** [New]: the flags fit the maps *)

Lemma holds_flag (K : FlagVal -> bool) fs m nm fl :
  nm ∉ dom m -> holds K fs m -> holds K (<[nm := fl]> fs) m.
Proof.
  intros Hnm H k v Hk. destruct (H k v Hk) as (f & x & Hf & Hx).
  exists f, x. rewrite lookup_insert_ne; [done|].
  intros <-. apply Hnm. apply elem_of_dom. by eexists.
Qed.

Lemma holds_entry (K : FlagVal -> bool) fs m nm v fl x :
  nm ∉ dom m -> Value fl = Own x -> K x = true ->
  holds K fs m -> holds K (<[nm := fl]> fs) (<[nm := v]> m).
Proof.
  intros Hnm Hv HK H k v' Hk. destruct (decide (k = nm)) as [->|Hne].
  - exists fl, x. by rewrite lookup_insert_eq.
  - rewrite lookup_insert_ne in Hk by done.
    destruct (H k v' Hk) as (f & y & Hf & Hy).
    exists f, y. by rewrite lookup_insert_ne.
Qed.

Lemma elem_of_keys (x : string) (c : Command) :
  x ∈ keys c <->
  ((x ∈ dom (arrays c)) \/ (x ∈ dom (slices c)) \/ (x ∈ dom (maps c))
   \/ (x ∈ dom (optInt c)) \/ (x ∈ dom (optBool c)) \/ (x ∈ dom (optString c))).
Proof. unfold keys. rewrite !elem_of_union. tauto. Qed.

Ltac keys_subset :=
  apply elem_of_subseteq; intros ?;
  rewrite elem_of_union, !elem_of_keys, elem_of_singleton; simpl;
  rewrite ?dom_insert, ?elem_of_union, ?elem_of_singleton; tauto.

Lemma New_field_typed (lv : LoopVar) (info : fieldInfo) (c c' : Command) (st st' : State) :
  exported (FieldType info) = true ->
  New_field lv info (c, st) = Some (c', st') ->
  flag_name (FieldType info) ∉ keys c ->
  typed c (flags st) ->
  typed c' (flags st') /\ keys c' ⊆ keys c ∪ {[flag_name (FieldType info)]}.
Proof.
  intros Hexp. unfold New_field, flag_name. rewrite Hexp. simpl negb. cbv iota.
  destruct (name (Name (FieldType info)) (TagGet (FieldTag (FieldType info)) "name")
              (TagGet (FieldTag (FieldType info)) "short")) as [nm alias].
  simpl fst.
  destruct (register _ _ _ _ _ _ _ _ _) as [[c1 st1]|] eqn:Hreg; [|done].
  intros [= <- <-] Hnm (Ha & Hs & Hm & Hi & Hb & Hst).
  rewrite elem_of_keys in Hnm.
  assert ((nm ∉ dom (arrays c)) /\ (nm ∉ dom (slices c)) /\ (nm ∉ dom (maps c))
          /\ (nm ∉ dom (optInt c)) /\ (nm ∉ dom (optBool c))
          /\ (nm ∉ dom (optString c)))
    as (Na & Ns & Nm & Ni & Nb & Nst) by tauto.
  unfold register in Hreg.
  destruct (TypeKind (Type_ (FieldType info))); try discriminate Hreg;
    try (injection Hreg as <- <-;
         split; [repeat split; simpl; by apply holds_flag|keys_subset]).
  - (* map *)
    injection Hreg as <- <-.
    split; [|keys_subset].
    repeat split; simpl; try (by apply holds_flag).
    by eapply holds_entry.
  - (* pointer *)
    destruct (ElemKind (Type_ (FieldType info)));
      injection Hreg as <- <-;
      try (split; [by repeat split|keys_subset]);
      (split; [|keys_subset]);
      repeat split; simpl; try (by apply holds_flag); by eapply holds_entry.
  - (* slice *)
    destruct (bool_decide _); injection Hreg as <- <-;
      (split; [|keys_subset]);
      repeat split; simpl; try (by apply holds_flag); by eapply holds_entry.
Qed.

Lemma New_loop_typed (lv : LoopVar) (infos : list fieldInfo) :
  forall c0 st0 c st,
    Forall (fun info => exported (FieldType info) = true) infos ->
    NoDup (map (fun info => flag_name (FieldType info)) infos) ->
    (forall nm, nm ∈ map (fun info => flag_name (FieldType info)) infos -> nm ∉ keys c0) ->
    New_loop lv infos (c0, st0) = Some (c, st) ->
    typed c0 (flags st0) ->
    typed c (flags st)
    /\ keys c ⊆ keys c0 ∪ list_to_set (map (fun info => flag_name (FieldType info)) infos).
Proof.
  induction infos as [|info infos IH]; intros c0 st0 c st Hexp Hnd Hfresh Hrun Hty.
  - simpl in Hrun. injection Hrun as <- <-. split; [done|].
    apply elem_of_subseteq. intros x Hx. by apply elem_of_union_l.
  - simpl in Hrun, Hnd. apply NoDup_cons in Hnd as [Hnm Hnd].
    apply Forall_cons in Hexp as [He Hexp].
    destruct (New_field lv info (c0, st0)) as [[c1 st1]|] eqn:Hf; [|done].
    destruct (New_field_typed lv info c0 c1 st0 st1 He Hf) as [Hty1 Hk1]; [|done|].
    { apply Hfresh. by left. }
    destruct (IH c1 st1 c st Hexp Hnd) as [Hty2 Hk2]; [|done|done|].
    + intros nm Hin Hk. apply Hk1 in Hk. apply elem_of_union in Hk as [Hk|Hk].
      * apply (Hfresh nm); [by right|done].
      * apply elem_of_singleton in Hk as ->. done.
    + split; [done|]. simpl. rewrite elem_of_subseteq in Hk1, Hk2.
      apply elem_of_subseteq. intros x Hx. apply Hk2 in Hx.
      apply elem_of_union in Hx as [Hx|Hx].
      * apply Hk1 in Hx. apply elem_of_union in Hx as [Hx|Hx];
          [by apply elem_of_union_l|].
        apply elem_of_union_r. by apply elem_of_union_l.
      * apply elem_of_union_r. by apply elem_of_union_r.
Qed.

Lemma New_typed_names (lv : LoopVar) (t : GoType) (st : State) (c : Command) (st' : State) :
  NoDup (flag_names t) ->
  New lv t st = Some (c, st') ->
  typed c (flags st') /\ keys c ⊆ list_to_set (flag_names t).
Proof.
  intros Hnd Hnew. rewrite New_bindable in Hnew.
  assert (forall x, x ∉ keys Command_empty) as Hempty.
  { intros x. rewrite elem_of_keys. simpl. rewrite !dom_empty.
    intros H. repeat (destruct H as [H|H]; [by apply not_elem_of_empty in H|]).
    by apply not_elem_of_empty in H. }
  assert (Forall (fun info => exported (FieldType info) = true) (bindable t [])) as Hexp.
  { unfold bindable. apply Forall_forall. intros info Hin.
    by apply list_elem_of_filter in Hin as [? _]. }
  assert (typed Command_empty (flags st)) as Hty0.
  { repeat split; intros k v Hk; simpl in Hk; by rewrite lookup_empty in Hk. }
  destruct (New_loop_typed lv (bindable t []) Command_empty st c st' Hexp Hnd
              (fun nm _ => Hempty nm) Hnew Hty0) as [Hty Hk].
  split; [done|]. unfold flag_names. rewrite elem_of_subseteq in Hk.
    apply elem_of_subseteq. intros x Hx. apply Hk in Hx.
    apply elem_of_union in Hx as [Hx|Hx]; [|done]. by destruct (Hempty x).
Qed.



(** ** A hook on a command whose flags fit its maps *)

Lemma holds_kept (K : FlagVal -> bool) (fs fs' : gmap string Flag) (m : gmap string Loc) :
  (forall x y, same_kind x y = true -> K x = true -> K y = true) ->
  (forall nm, option_Forall2 flag_kept (fs !! nm) (fs' !! nm)) ->
  holds K fs m -> holds K fs' m.
Proof.
  intros HK Hkept H k v Hk. destruct (H k v Hk) as (f & x & Hf & Hv & Hx).
  specialize (Hkept k). rewrite Hf in Hkept.
  inversion Hkept as [f0 f' (Hs & _) Hf0 Hf'|]; subst.
  rewrite Hv in Hs. destruct (Value f') as [y|l] eqn:Hv'; [|done].
  exists f', y. split; [done|]. split; [done|]. by apply (HK x y).
Qed.

Lemma typed_kept (c : Command) (fs fs' : gmap string Flag) :
  (forall nm, option_Forall2 flag_kept (fs !! nm) (fs' !! nm)) ->
  typed c fs -> typed c fs'.
Proof.
  intros Hkept (Ha & Hs & Hm & Hi & Hb & Hst).
  repeat split; (eapply holds_kept; [|exact Hkept|eassumption]);
    intros [] []; done.
Qed.

Lemma contextKey_plain (k : string) : has_byte "," k = false -> contextKey k = k.
Proof. intros H. unfold contextKey. by rewrite (Split_no_byte _ _ H). Qed.

Section Ok.

Variable body : string -> Loc -> State -> State * Result.
Variable decide : gmap string Flag -> string -> Action.
Variable good : gmap string Flag -> string -> Prop.

Hypothesis body_frame : forall k v st, frame (eq v) st (body k v st).1.
Hypothesis body_decide :
  forall k v st, good (flags st) k -> body k v st = perform v (decide (flags st) k) st.

Lemma forRange_ok (m : list (string * Loc)) :
  forall st,
    (forall k v, (k, v) ∈ m ->
       good (flags st) k /\ forall r, decide (flags st) k <> Stop r) ->
    exists st', forRange body m st = (st', ROk) /\ flags st' = flags st.
Proof.
  induction m as [|[k v] m IH]; intros st Hall; [by eexists|].
  simpl. destruct (Hall k v ltac:(by left)) as [Hg Hns].
  pose proof (body_frame k v st) as Hf.
  rewrite (body_decide k v st Hg) in *.
  destruct (perform v (decide (flags st) k) st) as [st1 r] eqn:Hp. simpl in Hf.
  assert (r = ROk) as ->.
  { destruct (decide (flags st) k) eqn:Hd; simpl in Hp; congruence. }
  destruct (IH st1) as (st' & Hrun & Hfl).
  { intros k' v' Hin. rewrite (frame_flags _ _ _ Hf). apply (Hall k' v'). by right. }
  exists st'. split; [done|]. by rewrite Hfl, (frame_flags _ _ _ Hf).
Qed.

End Ok.

Lemma step_ok (s : Step) (f : State -> State * Result) (st : State) :
  (exists st', f (enter s st) = (st', ROk) /\ flags st' = flags st) ->
  exists st', step s f st = (st', ROk) /\ flags st' = flags st.
Proof. done. Qed.

Lemma writeback_ok (c : Command) (oa osl om oi ob os : list (string * Loc)) (st : State) :
  typed c (flags st) ->
  (forall k, k ∈ keys c -> has_byte "," k = false) ->
  drawn (arrays c) oa -> drawn (slices c) osl -> drawn (maps c) om ->
  drawn (optInt c) oi -> drawn (optBool c) ob -> drawn (optString c) os ->
  exists st', run (writeback oa osl om oi ob os) st = (st', ROk)
              /\ flags st' = flags st.
Proof.
  intros (Ta & Ts & Tm & Ti & Tb & Tst) Hplain Da Ds Dm Di Db Dst.
  assert (forall (m : gmap string Loc) k v, m !! k = Some v ->
            (k ∈ dom m)) as Hdom.
  { intros m k v H. apply elem_of_dom. by eexists. }
  assert (forall k v, arrays c !! k = Some v -> contextKey k = k) as Pa.
  { intros k v H. apply contextKey_plain, Hplain, elem_of_keys. left. by eapply Hdom. }
  assert (forall k v, slices c !! k = Some v -> contextKey k = k) as Ps.
  { intros k v H. apply contextKey_plain, Hplain, elem_of_keys.
    right; left. by eapply Hdom. }
  assert (forall k v, maps c !! k = Some v -> contextKey k = k) as Pm.
  { intros k v H. apply contextKey_plain, Hplain, elem_of_keys.
    right; right; left. by eapply Hdom. }
  assert (forall k v, optInt c !! k = Some v -> contextKey k = k) as Pi.
  { intros k v H. apply contextKey_plain, Hplain, elem_of_keys.
    right; right; right; left. by eapply Hdom. }
  assert (forall k v, optBool c !! k = Some v -> contextKey k = k) as Pb.
  { intros k v H. apply contextKey_plain, Hplain, elem_of_keys.
    right; right; right; right; left. by eapply Hdom. }
  assert (forall k v, optString c !! k = Some v -> contextKey k = k) as Pst.
  { intros k v H. apply contextKey_plain, Hplain, elem_of_keys.
    right; right; right; right; right. by eapply Hdom. }
  unfold writeback. simpl run.
  (* arrays *)
  destruct (step_ok SArrays (assignArrays oa) st) as (s1 & -> & F1).
  { apply (forRange_ok assignArrays_body decide_arrays always
             frame_assignArrays_body (fun k v st _ => assignArrays_body_decide k v st)
             oa (enter SArrays st)).
    intros k v Hin. split; [done|]. intros r. simpl.
    destruct (Ta k v (Da k v Hin)) as (f & x & Hf & Hv & Hx).
    unfold decide_arrays. rewrite (Pa k v (Da k v Hin)), Hf, Hv.
    destruct x; try done. apply sequence_action_not_Stop. }
  (* slices *)
  destruct (step_ok SSlices (assignSlices osl) s1) as (s2 & -> & F2).
  { apply (forRange_ok assignSlices_body decide_slices always
             frame_assignSlices_body (fun k v st _ => assignSlices_body_decide k v st)
             osl (enter SSlices s1)).
    intros k v Hin. split; [done|]. intros r. simpl. rewrite F1.
    destruct (Ts k v (Ds k v Hin)) as (f & x & Hf & Hv & Hx).
    unfold decide_slices. rewrite (Ps k v (Ds k v Hin)), Hf, Hv.
    destruct x; try done. apply sequence_action_not_Stop. }
  (* maps *)
  destruct (step_ok SMaps (assignMaps om) s2) as (s3 & -> & F3).
  { apply (forRange_ok assignMaps_body decide_maps always
             frame_assignMaps_body (fun k v st _ => assignMaps_body_decide k v st)
             om (enter SMaps s2)).
    intros k v Hin. split; [done|]. intros r. simpl. rewrite F2, F1.
    destruct (Tm k v (Dm k v Hin)) as (f & x & Hf & Hv & Hx).
    unfold decide_maps. rewrite (Pm k v (Dm k v Hin)), Hf, Hv.
    destruct x as [| | |[]|]; done. }
  (* optional integers *)
  destruct (step_ok SOptInt (assignOptInt oi) s3) as (s4 & -> & F4).
  { apply (forRange_ok assignOptInt_body (decide_opt int_cell "int") owned
             frame_assignOptInt_body assignOptInt_body_decide oi (enter SOptInt s3)).
    intros k v Hin. simpl. rewrite F3, F2, F1.
    destruct (Ti k v (Di k v Hin)) as (f & x & Hf & Hv & Hx).
    unfold owned, decide_opt. rewrite (Pi k v (Di k v Hin)), Hf. split.
    - intros f' l [= <-]. by rewrite Hv.
    - intros r. destruct (negb (Changed f)); [done|]. rewrite Hv. by destruct x. }
  (* optional booleans *)
  destruct (step_ok SOptBool (assignOptBool ob) s4) as (s5 & -> & F5).
  { apply (forRange_ok assignOptBool_body (decide_opt bool_cell "bool") owned
             frame_assignOptBool_body assignOptBool_body_decide ob (enter SOptBool s4)).
    intros k v Hin. simpl. rewrite F4, F3, F2, F1.
    destruct (Tb k v (Db k v Hin)) as (f & x & Hf & Hv & Hx).
    unfold owned, decide_opt. rewrite (Pb k v (Db k v Hin)), Hf. split.
    - intros f' l [= <-]. by rewrite Hv.
    - intros r. destruct (negb (Changed f)); [done|]. rewrite Hv. by destruct x. }
  (* optional strings *)
  destruct (step_ok SOptString (assignOptString os) s5) as (s6 & -> & F6).
  { apply (forRange_ok assignOptString_body (decide_opt string_cell "string") owned
             frame_assignOptString_body assignOptString_body_decide os
             (enter SOptString s5)).
    intros k v Hin. simpl. rewrite F5, F4, F3, F2, F1.
    destruct (Tst k v (Dst k v Hin)) as (f & x & Hf & Hv & Hx).
    unfold owned, decide_opt. rewrite (Pst k v (Dst k v Hin)), Hf. split.
    - intros f' l [= <-]. by rewrite Hv.
    - intros r. destruct (negb (Changed f)); [done|]. rewrite Hv. by destruct x. }
  exists s6. split; [done|]. congruence.
Qed.



(** ** [RegisterFlag] and [expandRegisteredFlags] *)

Lemma RegisterFlag_lookup {F : Type} (k cmdline : string) (flag : F)
    (o : gmap string (list F)) :
  default [] (RegisterFlag cmdline flag o !! k)
  = default [] (o !! k) ++ (if bool_decide (cmdline = k) then [flag] else []).
Proof.
  unfold RegisterFlag. case_bool_decide as H.
  - subst. by rewrite lookup_insert_eq.
  - rewrite lookup_insert_ne by done. by rewrite app_nil_r.
Qed.

(** X16.  The flags registered for a command line are kept in the order of
    their registration, and registrations for other command lines do
    not touch them. *)
Theorem RegisterFlags_lookup {F : Type} (regs : list (string * F)) (k : string) :
  default [] (RegisterFlags regs !! k)
  = map snd (filter (fun r => r.1 = k) regs).
Proof.
  unfold RegisterFlags.
  assert (forall o, default [] (fold_left (fun o r => RegisterFlag r.1 r.2 o) regs o !! k)
                    = default [] (o !! k) ++ map snd (filter (fun r => r.1 = k) regs))
    as H; [|by rewrite H, lookup_empty].
  induction regs as [|[c f] regs IH]; intros o; simpl.
  - by rewrite app_nil_r.
  - rewrite IH, RegisterFlag_lookup. rewrite <- app_assoc. f_equal.
    case_bool_decide as H.
    + by rewrite filter_cons_True.
    + by rewrite filter_cons_False.
Qed.

Lemma Fields_from_word (s word : string) :
  word <> "" -> Fields_from s word <> [].
Proof.
  revert word. induction s as [|c s IH]; intros word Hw; simpl.
  - by rewrite bool_decide_eq_false_2.
  - destruct (is_space c).
    + by rewrite bool_decide_eq_false_2.
    + apply IH. by destruct word.
Qed.

Lemma Fields_blank (s : string) : Fields s = [] <-> blank s = true.
Proof.
  unfold Fields. induction s as [|c s IH]; simpl; [done|].
  destruct (is_space c); simpl; [exact IH|].
  split; [|done]. intros H. by apply Fields_from_word in H.
Qed.

Lemma string_app_nil (s : string) : (s ++ "")%string = s.
Proof.
  induction s as [|a s IH]; [reflexivity|].
  change (String a (s ++ "")%string = String a s). by f_equal.
Qed.

Lemma string_app_snoc (s w : string) (a : ascii) :
  (s ++ String a w)%string = ((s ++ String a "") ++ w)%string.
Proof.
  induction s as [|b s IH]; [reflexivity|].
  change (String b (s ++ String a w)%string = String b ((s ++ String a "") ++ w)%string).
  by f_equal.
Qed.

Lemma Fields_from_spaceless (w s word : string) (c : ascii) :
  spaceless w = true -> is_space c = true -> (word ++ w)%string <> "" ->
  Fields_from (w ++ String c s)%string word = (word ++ w)%string :: Fields s.
Proof.
  revert word. induction w as [|a w IH]; intros word Hw Hc Hne.
  - simpl. rewrite Hc.
    rewrite string_app_nil in *. by rewrite bool_decide_eq_false_2.
  - simpl in Hw. apply andb_true_iff in Hw as [Ha Hw]. apply negb_true_iff in Ha.
    simpl. rewrite Ha.
    rewrite (string_app_snoc word w a) in *. by apply IH.
Qed.

Lemma expandRegisteredFlags_panics {S F : Type} (Traverse : list string -> option S)
    (entries : list (string * list F)) :
  forall added,
    expandRegisteredFlags Traverse entries added = None
    <-> Exists (fun e => blank e.1 = true) entries.
Proof.
  induction entries as [|[arg flags] entries IH]; intros added; simpl.
  - split; [done|]. intros H. inversion H.
  - rewrite Exists_cons. simpl. rewrite <- Fields_blank.
    destruct (Fields arg) as [|w args1] eqn:Hf.
    + split; [by left|done].
    + destruct (Traverse args1); rewrite IH; split; try tauto; intros [H|H]; done.
Qed.


Example expandRegisteredFlags_blank :
  expandRegisteredFlags (fun _ => Some 0%nat)
    (map_to_list (RegisterFlag "  " "flag" ∅)) [] = None.
Proof. vm_compute. reflexivity. Qed.

(** ** [Name] *)

Lemma strip_prefix_app (p s : string) : strip_prefix p (p ++ s)%string = Some s.
Proof. induction p as [|a p IH]; simpl; [done|]. by rewrite Ascii.eqb_refl. Qed.

Lemma Replace1_unfold (s old : string) :
  Replace1 s old
  = match strip_prefix old s with
    | Some rest => rest
    | None =>
        match s with
        | EmptyString => EmptyString
        | String c s' => String c (Replace1 s' old)
        end
    end.
Proof. by destruct s. Qed.

Lemma Replace1_first (x y old : string) (c : ascii) (old' : string) :
  old = String c old' -> has_byte c x = false ->
  Replace1 (x ++ old ++ y)%string old = (x ++ y)%string.
Proof.
  intros -> Hx. induction x as [|a x IH].
  - change ("" ++ String c old' ++ y)%string with (String c old' ++ y)%string.
    by rewrite Replace1_unfold, strip_prefix_app.
  - simpl in Hx. apply orb_false_iff in Hx as [Ha Hx].
    change ((String a x ++ String c old' ++ y)%string)
      with (String a (x ++ String c old' ++ y)%string).
    rewrite Replace1_unfold. simpl strip_prefix. rewrite Ascii.eqb_sym, Ha.
    rewrite (IH Hx). reflexivity.
Qed.

Lemma Replace1_none (s old' : string) (c : ascii) :
  has_byte c s = false -> Replace1 s (String c old') = s.
Proof.
  induction s as [|a s IH]; [done|].
  intros H. simpl in H. apply orb_false_iff in H as [Ha Hs].
  rewrite Replace1_unfold. simpl strip_prefix. rewrite Ascii.eqb_sym, Ha.
  by rewrite (IH Hs).
Qed.

(** X18.  [Name] cuts the first [Command] out of the name of the type and
    names the command like a field: a type name [xCommandy] whose part
    [x] has no [C] gives the name derived from [xy], so that only the
    first occurrence goes; a type name without [C] is taken whole.
    The result is in lower case and has no underscore. *)
Theorem CommandName_strips (n : string) (fs : list StructField) (x y : string) :
  has_byte "C" x = false ->
  CommandName (TStruct (x ++ "Command" ++ y)%string fs) = (name (x ++ y)%string "" "").1
  /\ CommandName (TStruct x fs) = (name x "" "").1
  /\ has_upper (CommandName (TStruct n fs)) = false
  /\ has_byte "_" (CommandName (TStruct n fs)) = false.
Proof.
  intros Hx. unfold CommandName, TypeName.
  rewrite (Replace1_first x y "Command" "C" "ommand") by done.
  rewrite (Replace1_none x "ommand" "C") by done.
  split; [done|]. split; [done|].
  rewrite name_derived_flag. split.
  - apply has_upper_ToLower.
  - rewrite has_byte_ToLower by done. rewrite has_byte_kebab by done.
    apply last_segment_no_sep.
Qed.

Lemma CommandName_strips_witness :
  CommandName (TStruct "PkgListCommand" []) = "pkg-list".
Proof.
  exact (proj1 (CommandName_strips "" [] "PkgList" "" eq_refl)).
Defined.

(** ** [contextualize]: the cache of options *)

Lemma apply_options_app {O : Type} (a b : list (O -> O)) (o : O) :
  apply_options (a ++ b) o = apply_options b (apply_options a o).
Proof. apply fold_left_app. Qed.

Lemma contextualize_cache_first {O CM L IO : Type} (zero : O) defaults
    (cm : O -> option CM) (lg : O -> option L) (io : O -> option IO)
    cache ctx opts :
  (contextualize zero defaults cm lg io cache ctx opts).1
  = Some (apply_options opts
            (match cache with
             | None => apply_options defaults zero
             | Some d => d
             end)).
Proof. reflexivity. Qed.

Lemma contextualize_after {O CM L IO : Type} (zero : O) defaults
    (cm : O -> option CM) (lg : O -> option L) (io : O -> option IO)
    cache ctx0 opts0 ctx opts :
  contextualize zero defaults cm lg io
    (contextualize zero defaults cm lg io cache ctx0 opts0).1 ctx opts
  = contextualize zero defaults cm lg io cache ctx (opts0 ++ opts).
Proof.
  unfold contextualize. simpl. by rewrite apply_options_app.
Qed.

(** X19 (contextualize): the cache makes the calls add up.  A call
    made after any series of calls returns the context, and leaves the
    cache, that a first call would with the options of all the earlier
    calls in front of its own: the defaults are applied once, and what
    an option of an earlier call wrote is still there. *)
Theorem contextualize_accumulates {O CM L IO : Type} (zero : O)
    (defaults : list (O -> O))
    (cm : O -> option CM) (lg : O -> option L) (io : O -> option IO)
    (calls : list (Context CM L IO * list (O -> O)))
    (ctx : Context CM L IO) (opts : list (O -> O)) :
  contextualize zero defaults cm lg io
    (contextualize_all zero defaults cm lg io None calls) ctx opts
  = contextualize zero defaults cm lg io None ctx
      (concat (map snd calls) ++ opts).
Proof.
  unfold contextualize_all. generalize (@None O) as cache.
  revert ctx opts. induction calls as [|[ctx0 opts0] calls IH];
    intros ctx opts cache; [reflexivity|].
  simpl fold_left. rewrite IH. simpl map. simpl concat.
  rewrite <- app_assoc.
  exact (contextualize_after zero defaults cm lg io cache ctx0 opts0 ctx _).
Qed.


(** ** Package [component] *)

Lemma last_given_cons_Some {A B : Type} (pick : A -> option B) d a b l :
  pick a = Some b ->
  component.last_given pick d (a :: l) = component.last_given pick b l.
Proof.
  intros H. unfold component.last_given. simpl. rewrite H. simpl.
  rewrite last_cons. by destruct (last _).
Qed.

Lemma last_given_cons_None {A B : Type} (pick : A -> option B) d a l :
  pick a = None ->
  component.last_given pick d (a :: l) = component.last_given pick d l.
Proof.
  intros H. unfold component.last_given. simpl. by rewrite H.
Qed.

(** X21 (option.go): a sequence of the three options never fails,
    leaves each of [workdir], [ctx] and [ctype] at the last value given
    for it, or as it was when none is given, and touches nothing
    else. *)
Theorem options_last_given {C T R : Type} (gs : list (component.Given C T))
    (cc : component.ComponentConfig C T R) :
  component.in_turn (map component.option_of gs) cc
  = (component.mkComponentConfig
       (component.last_given component.given_workdir (component.workdir cc) gs)
       (component.last_given component.given_ctx (component.ctx cc) gs)
       (component.last_given component.given_ctype (component.ctype cc) gs)
       (component.others cc),
     None).
Proof.
  revert cc. induction gs as [|g gs IH]; intros cc.
  - by destruct cc.
  - destruct g as [path|c|t]; simpl; rewrite IH; simpl.
    + rewrite (last_given_cons_Some component.given_workdir
                 (component.workdir cc) (component.GWorkdir path) path gs eq_refl).
      rewrite (last_given_cons_None component.given_ctx
                 (component.ctx cc) (component.GWorkdir path) gs eq_refl).
      by rewrite (last_given_cons_None component.given_ctype
                    (component.ctype cc) (component.GWorkdir path) gs eq_refl).
    + rewrite (last_given_cons_Some component.given_ctx
                 (component.ctx cc) (component.GContext c) c gs eq_refl).
      rewrite (last_given_cons_None component.given_workdir
                 (component.workdir cc) (component.GContext c) gs eq_refl).
      by rewrite (last_given_cons_None component.given_ctype
                    (component.ctype cc) (component.GContext c) gs eq_refl).
    + rewrite (last_given_cons_Some component.given_ctype
                 (component.ctype cc) (component.GType t) t gs eq_refl).
      rewrite (last_given_cons_None component.given_workdir
                 (component.workdir cc) (component.GType t) gs eq_refl).
      by rewrite (last_given_cons_None component.given_ctx
                    (component.ctx cc) (component.GType t) gs eq_refl).
Qed.

(** ** The hooks [New] installs *)

